(** * Ledger service: customers, accounts, transactions

    A shallow embedding of [app/models.py] and [app/graphql_schema.py] of the
    banking GraphQL service.  The three SQLAlchemy models become records, the
    SQLite file becomes a [Database] of three row lists, an ORM session
    becomes a small state-and-exception monad over a [Session] record, and the
    Strawberry resolvers of [Query] and [Mutation] become programs of that
    monad.  Python's [float] is IEEE 754 binary64, which is Rocq's primitive
    [float]; [-=], [+=] and [<] are [PrimFloat.sub], [PrimFloat.add] and
    [PrimFloat.ltb].  A [Float] column is nullable and is read back as
    [None] or a float, so a stored float is an [option float]; what SQLite
    makes of a float written to such a column is [store_float]. *)

From Stdlib Require Import ZArith Floats Lia.
From stdpp Require Import base option list gmap strings.

Local Open Scope Z_scope.

(** ** models.py: the three mapped classes *)

(** [class Customer(Base)]: table [customers]. *)
Module Customer.
Record t : Type := Build { id : Z; name : string }.
End Customer.

(** [class Account(Base)]: table [accounts]; [balance] is a nullable
    [Float] column, [None] in Python when it holds NULL. *)
Module Account.
Record t : Type := Build { id : Z; customer_id : Z; balance : option float }.
Definition with_balance (a : t) (b : option float) : t :=
  Build (id a) (customer_id a) b.
End Account.

(** [class Transaction(Base)]: table [transactions]; [amount] is a nullable
    [Float] column as well. *)
Module Transaction.
Record t : Type :=
  Build { id : Z; from_account_id : Z; to_account_id : Z;
          amount : option float }.
End Transaction.

(** ** graphql_schema.py: the three Strawberry output types

    The resolvers fill [balance] and [amount] with whatever the mapped
    attribute holds, which is [None] for a NULL column. *)

Module CustomerType.
Record t : Type := Build { id : Z; name : string }.
End CustomerType.

Module AccountType.
Record t : Type :=
  Build { id : Z; balance : option float; customer : CustomerType.t }.
End AccountType.

Module TransactionType.
Record t : Type :=
  Build { id : Z; from_account : AccountType.t; to_account : AccountType.t;
          amount : option float }.
End TransactionType.

(** ** The relational store

    One row list per table, in rowid order (the order [Query.all()] returns
    without an ORDER BY). *)
Record Database : Type := MkDatabase {
  tbl_customers : list Customer.t;
  tbl_accounts : list Account.t;
  tbl_transactions : list Transaction.t
}.

Definition empty_db : Database := MkDatabase [] [] [].

(** The value SQLite gives an [INTEGER PRIMARY KEY] column left unset at
    INSERT: 1 in an empty table, otherwise one more than the largest key. *)
Definition fresh_id (keys : list Z) : Z :=
  match keys with
  | [] => 1
  | k :: ks => 1 + foldr Z.max k ks
  end.

(** What a [Float] column gives back for a float written to it: SQLite
    stores NaN as NULL and negative zero as zero, and every other value,
    the infinities included, as it is. *)
Definition store_float (x : float) : option float :=
  if is_nan x then None
  else if (x =? 0)%float then Some 0%float
  else Some x.

(** [SELECT ... WHERE id = ? LIMIT 1] on each table. *)
Definition select_customer (db : Database) (k : Z) : option Customer.t :=
  find (fun c => Customer.id c =? k) (tbl_customers db).

Definition select_account (db : Database) (k : Z) : option Account.t :=
  find (fun a => Account.id a =? k) (tbl_accounts db).

(** ** Exceptions and results *)

Inductive exn : Type :=
  | ValueError (msg : string)      (* raised by the resolvers themselves *)
  | AttributeError                 (* [None.id] and the like *)
  | TypeError                      (* [None < x], [None - x], [None + x] *)
  | InvalidRequestError.           (* SQLAlchemy: object not in the session *)

Inductive result (A : Type) : Type :=
  | Ok (a : A)
  | Raise (e : exn).
Arguments Ok {A} a.
Arguments Raise {A} e.

(** The spec's error taxonomy (section 7); the code raises a plain
    [ValueError] and tells the kinds apart by message only. *)
Inductive ErrorKind : Type :=
  | NotFoundError
  | InsufficientFundsError
  | ValidationError.

Definition error_kind (e : exn) : option ErrorKind :=
  match e with
  | ValueError msg =>
      if String.eqb msg "Customer not found" then Some NotFoundError
      else if String.eqb msg "Account not found" then Some NotFoundError
      else if String.eqb msg "Insufficient balance" then Some InsufficientFundsError
      else None
  | _ => None
  end.

Definition fails_with {A} (k : ErrorKind) (r : result A) : Prop :=
  match r with
  | Ok _ => False
  | Raise e => error_kind e = Some k
  end.

(** ** The ORM session

    Objects created with a constructor and handed to [db.add] wait in [new]
    until the next flush gives them a primary key. *)
Inductive Pending : Type :=
  | NewCustomer (name : string)
  | NewAccount (customer_id : Z) (balance : float)
  | NewTransaction (from_account_id to_account_id : Z) (amount : float).

(** [bind] is the database as committed so far.  [identity_map] holds the
    [Account] objects the session has loaded, one per primary key: two queries
    for the same row yield the same Python object, so an object reference is
    modelled by its key.  [dirty] are the keys of the objects whose [balance]
    was assigned.  [keys] are the primary keys the last flush gave to the
    objects of [new], in the order they were added.  Customers and
    transactions are never assigned to, so a loaded one is its row.  A
    loaded account holds what the column gave; one whose [balance] was
    assigned holds the assigned float as it is until the flush writes it. *)
Record Session : Type := MkSession {
  bind : Database;
  identity_map : gmap Z Account.t;
  dirty : gset Z;
  new : list Pending;
  keys : list Z
}.

Definition M (A : Type) : Type := Session -> result A * Session.

Definition ret {A} (a : A) : M A := fun s => (Ok a, s).

Definition raise {A} (e : exn) : M A := fun s => (Raise e, s).

Definition mbind {A B} (m : M A) (f : A -> M B) : M B :=
  fun s =>
    match m s with
    | (Ok a, s') => f a s'
    | (Raise e, s') => (Raise e, s')
    end.

Notation "x <- m ;; k" := (mbind m (fun x => k))
  (at level 100, m at next level, right associativity).
Notation "m ;; k" := (mbind m (fun _ => k))
  (at level 100, right associativity).

(** A list comprehension whose element expression runs in the session. *)
Fixpoint mapM {A B} (f : A -> M B) (l : list A) : M (list B) :=
  match l with
  | [] => ret []
  | x :: xs => y <- f x ;; ys <- mapM f xs ;; ret (y :: ys)
  end.

(** Attribute access on a value that may be [None]. *)
Definition attr {A} (o : option A) : M A :=
  match o with
  | Some a => ret a
  | None => raise AttributeError
  end.

(** A stored float used as an operand of [<], [-] or [+]: Python 3 refuses
    [None] there. *)
Definition operand (o : option float) : M float :=
  match o with
  | Some x => ret x
  | None => raise TypeError
  end.

(** Register a fetched account row in the identity map; an object already
    there is kept as it is. *)
Definition load (row : Account.t) (s : Session) : Session :=
  match identity_map s !! Account.id row with
  | Some _ => s
  | None =>
      MkSession (bind s) (<[Account.id row := row]> (identity_map s))
                (dirty s) (new s) (keys s)
  end.

(** [db.query(Customer).all()] *)
Definition query_Customer_all : M (list Customer.t) :=
  fun s => (Ok (tbl_customers (bind s)), s).

(** [db.query(Account).all()]: references to the loaded objects. *)
Definition query_Account_all : M (list Z) :=
  fun s =>
    (Ok (map Account.id (tbl_accounts (bind s))),
     foldl (fun s' row => load row s') s (tbl_accounts (bind s))).

(** [db.query(Transaction).all()] *)
Definition query_Transaction_all : M (list Transaction.t) :=
  fun s => (Ok (tbl_transactions (bind s)), s).

(** [db.query(Customer).filter(Customer.id == k).first()] *)
Definition query_Customer_first (k : Z) : M (option Customer.t) :=
  fun s => (Ok (select_customer (bind s) k), s).

(** [db.query(Account).filter(Account.id == k).first()] *)
Definition query_Account_first (k : Z) : M (option Z) :=
  fun s =>
    match select_account (bind s) k with
    | Some row => (Ok (Some (Account.id row)), load row s)
    | None => (Ok None, s)
    end.

(** Reading the attributes of a loaded account. *)
Definition Account_get (ref : Z) : M Account.t :=
  fun s =>
    match identity_map s !! ref with
    | Some o => (Ok o, s)
    | None => (Raise InvalidRequestError, s)
    end.

(** [ref.balance = b] *)
Definition Account_set_balance (ref : Z) (b : float) : M unit :=
  fun s =>
    match identity_map s !! ref with
    | Some o =>
        (Ok tt,
         MkSession (bind s)
                   (<[ref := Account.with_balance o (Some b)]> (identity_map s))
                   ({[ref]} ∪ dirty s) (new s) (keys s))
    | None => (Raise InvalidRequestError, s)
    end.

(** The many-to-one relationships, loaded on first access. *)
Definition Account_customer (a : Account.t) : M (option Customer.t) :=
  query_Customer_first (Account.customer_id a).

Definition Transaction_from_account (x : Transaction.t) : M (option Z) :=
  query_Account_first (Transaction.from_account_id x).

Definition Transaction_to_account (x : Transaction.t) : M (option Z) :=
  query_Account_first (Transaction.to_account_id x).

(** [db.add(obj)]: the handle is the object's position in [new]. *)
Definition add (p : Pending) : M nat :=
  fun s =>
    (Ok (length (new s)),
     MkSession (bind s) (identity_map s) (dirty s) (new s ++ [p]) (keys s)).

(** The UPDATE statements of a flush: the [balance] of each dirty object is
    written to the rows with its key, and becomes what the column makes of
    it. *)
Definition flush_updates (s : Session) : list Account.t :=
  map (fun row =>
         if decide (Account.id row ∈ dirty s) then
           match identity_map s !! Account.id row with
           | Some o =>
               Account.with_balance row (Account.balance o ≫= store_float)
           | None => row
           end
         else row)
      (tbl_accounts (bind s)).

(** One INSERT statement; the result is the new primary key.  The floats of
    the new row go through the column. *)
Definition insert (p : Pending) (db : Database) : Z * Database :=
  match p with
  | NewCustomer n =>
      let k := fresh_id (map Customer.id (tbl_customers db)) in
      (k, MkDatabase (tbl_customers db ++ [Customer.Build k n])
                     (tbl_accounts db) (tbl_transactions db))
  | NewAccount c b =>
      let k := fresh_id (map Account.id (tbl_accounts db)) in
      (k, MkDatabase (tbl_customers db)
                     (tbl_accounts db ++ [Account.Build k c (store_float b)])
                     (tbl_transactions db))
  | NewTransaction f t a =>
      let k := fresh_id (map Transaction.id (tbl_transactions db)) in
      (k, MkDatabase (tbl_customers db) (tbl_accounts db)
                     (tbl_transactions db ++
                      [Transaction.Build k f t (store_float a)]))
  end.

Fixpoint insert_all (ps : list Pending) (db : Database) : list Z * Database :=
  match ps with
  | [] => ([], db)
  | p :: ps' =>
      let '(k, db1) := insert p db in
      let '(ks, db2) := insert_all ps' db1 in
      (k :: ks, db2)
  end.

(** [db.commit()]: flush the updates and the inserts, make them the committed
    state, and expire every loaded object. *)
Definition commit : M unit :=
  fun s =>
    let db1 := MkDatabase (tbl_customers (bind s)) (flush_updates s)
                          (tbl_transactions (bind s)) in
    let '(ks, db2) := insert_all (new s) db1 in
    (Ok tt, MkSession db2 ∅ ∅ [] ks).

(** [db.refresh(obj)] for an object added under handle [h]: its row is read
    back by primary key. *)
Definition primary_key (h : nat) : M Z :=
  fun s =>
    match keys s !! h with
    | Some k => (Ok k, s)
    | None => (Raise InvalidRequestError, s)
    end.

Definition refresh_Customer (h : nat) : M Customer.t :=
  k <- primary_key h ;;
  fun s =>
    match select_customer (bind s) k with
    | Some row => (Ok row, s)
    | None => (Raise InvalidRequestError, s)
    end.

Definition refresh_Account (h : nat) : M Account.t :=
  k <- primary_key h ;;
  fun s =>
    match select_account (bind s) k with
    | Some row => (Ok row, s)
    | None => (Raise InvalidRequestError, s)
    end.

(** Modelled from the spec: [get_db] of [database.py], which is not among the
    sources ("Utility to get the session"): a session on the store with
    nothing loaded and nothing pending. *)
Definition get_db (db : Database) : Session := MkSession db ∅ ∅ [] [].

(** A resolver is run against the store: what the caller sees is the result
    and the committed database. *)
Definition Resolver (A : Type) : Type := Database -> result A * Database.

Definition with_session {A} (body : M A) : Resolver A :=
  fun db => let '(r, s) := body (get_db db) in (r, bind s).

(** ** graphql_schema.py: [class Query] *)
Module Query.

(** [def customers(self) -> List[CustomerType]] *)
Definition customers : Resolver (list CustomerType.t) :=
  with_session (
    db_customers <- query_Customer_all ;;
    ret (map (fun c => CustomerType.Build (Customer.id c) (Customer.name c))
             db_customers)).

(** [AccountType(id=a.id, balance=a.balance,
                 customer=CustomerType(id=a.customer.id, name=a.customer.name))]
    for the account object behind reference [ref]. *)
Definition account_type (ref : Z) : M AccountType.t :=
  a <- Account_get ref ;;
  c <- Account_customer a ;;
  c <- attr c ;;
  ret (AccountType.Build (Account.id a) (Account.balance a)
         (CustomerType.Build (Customer.id c) (Customer.name c))).

(** [def accounts(self) -> List[AccountType]] *)
Definition accounts : Resolver (list AccountType.t) :=
  with_session (
    db_accounts <- query_Account_all ;;
    mapM account_type db_accounts).

(** [TransactionType(id=t.id, from_account=AccountType(...),
                     to_account=AccountType(...), amount=t.amount)]
    for the row [x]. *)
Definition transaction_type (x : Transaction.t) : M TransactionType.t :=
  from_account <- Transaction_from_account x ;;
  from_account <- attr from_account ;;
  from_account <- account_type from_account ;;
  to_account <- Transaction_to_account x ;;
  to_account <- attr to_account ;;
  to_account <- account_type to_account ;;
  ret (TransactionType.Build (Transaction.id x) from_account to_account
         (Transaction.amount x)).

(** [def transactions(self) -> List[TransactionType]] *)
Definition transactions : Resolver (list TransactionType.t) :=
  with_session (
    db_transactions <- query_Transaction_all ;;
    mapM transaction_type db_transactions).

End Query.

(** ** graphql_schema.py: [class Mutation] *)
Module Mutation.

(** [def create_customer(self, name: str) -> CustomerType] *)
Definition create_customer (name : string) : Resolver CustomerType.t :=
  with_session (
    new_customer <- add (NewCustomer name) ;;
    commit ;;
    new_customer <- refresh_Customer new_customer ;;
    ret (CustomerType.Build (Customer.id new_customer)
           (Customer.name new_customer))).

(** [def create_account(self, customer_id: int, initial_balance: float)
      -> AccountType] *)
Definition create_account (customer_id : Z) (initial_balance : float)
  : Resolver AccountType.t :=
  with_session (
    customer <- query_Customer_first customer_id ;;
    match customer with
    | None => raise (ValueError "Customer not found")
    | Some customer =>
        new_account <- add (NewAccount customer_id initial_balance) ;;
        commit ;;
        new_account <- refresh_Account new_account ;;
        ret (AccountType.Build (Account.id new_account)
               (Account.balance new_account)
               (CustomerType.Build (Customer.id customer)
                  (Customer.name customer)))
    end).

(** [def transfer_funds(self, from_account_id: int, to_account_id: int,
                        amount: float) -> bool] *)
Definition transfer_funds (from_account_id to_account_id : Z) (amount : float)
  : Resolver bool :=
  with_session (
    from_account <- query_Account_first from_account_id ;;
    to_account <- query_Account_first to_account_id ;;
    match from_account, to_account with
    | Some from_account, Some to_account =>
        from_ <- Account_get from_account ;;
        balance <- operand (Account.balance from_) ;;
        if (balance <? amount)%float then
          raise (ValueError "Insufficient balance")
        else
          (* from_account.balance -= amount *)
          from_ <- Account_get from_account ;;
          balance <- operand (Account.balance from_) ;;
          Account_set_balance from_account (balance - amount)%float ;;
          (* to_account.balance += amount *)
          to_ <- Account_get to_account ;;
          balance <- operand (Account.balance to_) ;;
          Account_set_balance to_account (balance + amount)%float ;;
          add (NewTransaction from_account_id to_account_id amount) ;;
          commit ;;
          ret true
    | _, _ => raise (ValueError "Account not found")
    end).

End Mutation.

(** ** Observations on the store and its invariants *)

(** The balance of the account named by [k], when there is such an account
    and its balance is a float, not NULL. *)
Definition balance_of (db : Database) (k : Z) : option float :=
  select_account db k ≫= Account.balance.

(** [balance >= 0] on Python floats; NaN is not. *)
Definition nonneg (x : float) : Prop := (0 <=? x)%float = true.

(** The same on a stored balance; NULL is not. *)
Definition nonneg_balance (o : option float) : Prop :=
  match o with
  | Some x => nonneg x
  | None => False
  end.

Definition balances_nonneg (db : Database) : Prop :=
  Forall (fun a => nonneg_balance (Account.balance a)) (tbl_accounts db).

(** The data-model invariants of the spec's section 3: primary keys are
    unique, every account references an existing customer, every transaction
    references two existing accounts. *)
Definition integrity (db : Database) : Prop :=
  NoDup (map Customer.id (tbl_customers db)) /\
  NoDup (map Account.id (tbl_accounts db)) /\
  NoDup (map Transaction.id (tbl_transactions db)) /\
  Forall (fun a => is_Some (select_customer db (Account.customer_id a)))
         (tbl_accounts db) /\
  Forall (fun x => is_Some (select_account db (Transaction.from_account_id x)) /\
                   is_Some (select_account db (Transaction.to_account_id x)))
         (tbl_transactions db).

#[global] Instance integrity_dec db : Decision (integrity db).
Proof. unfold integrity. apply _. Defined.

(** A mutation request, and the store it leaves when it succeeds. *)
Inductive Operation : Type :=
  | CreateCustomer (name : string)
  | CreateAccount (customer_id : Z) (initial_balance : float)
  | TransferFunds (from_account_id to_account_id : Z) (amount : float).

Definition committed {A} (r : result A * Database) : option Database :=
  match r with
  | (Ok _, db') => Some db'
  | (Raise _, _) => None
  end.

Definition perform (op : Operation) (db : Database) : option Database :=
  match op with
  | CreateCustomer name => committed (Mutation.create_customer name db)
  | CreateAccount customer_id initial_balance =>
      committed (Mutation.create_account customer_id initial_balance db)
  | TransferFunds from_account_id to_account_id amount =>
      committed (Mutation.transfer_funds from_account_id to_account_id amount db)
  end.

(** The stores the service can be in: whatever a sequence of successful
    mutations makes of the empty database. *)
Inductive reachable : Database -> Prop :=
  | reachable_empty : reachable empty_db
  | reachable_step db op db' :
      reachable db -> perform op db = Some db' -> reachable db'.

(** A sequence of mutation requests, each of which has to succeed. *)
Fixpoint perform_all (ops : list Operation) (db : Database) : option Database :=
  match ops with
  | [] => Some db
  | op :: ops' =>
      match perform op db with
      | Some db' => perform_all ops' db'
      | None => None
      end
  end.

(** [x] is a finite number or minus infinity: what is left of the floats
    below plus infinity. *)
Definition below_infinity (x : float) : Prop := (x <? infinity)%float = true.

(** The arguments under which a mutation keeps balances non-negative. *)
Definition admissible (op : Operation) : Prop :=
  match op with
  | CreateCustomer _ => True
  | CreateAccount _ initial_balance => nonneg initial_balance
  | TransferFunds _ _ amount => nonneg amount /\ below_infinity amount
  end.

(** What the list resolvers build for one row, with the relationships
    resolved against the store. *)
Definition customer_type (c : Customer.t) : CustomerType.t :=
  CustomerType.Build (Customer.id c) (Customer.name c).

Definition account_view (db : Database) (a : Account.t) : option AccountType.t :=
  c ← select_customer db (Account.customer_id a);
  Some (AccountType.Build (Account.id a) (Account.balance a) (customer_type c)).

Definition transaction_view (db : Database) (x : Transaction.t)
  : option TransactionType.t :=
  f ← select_account db (Transaction.from_account_id x);
  f ← account_view db f;
  t ← select_account db (Transaction.to_account_id x);
  t ← account_view db t;
  Some (TransactionType.Build (Transaction.id x) f t (Transaction.amount x)).

(** The balance the two assignments of [transfer_funds] leave, once flushed,
    in the row with key [k] and balance [b], given the balances [bf] and [bt]
    read from the source and the destination row: when both ids name one row,
    the increment reads the float the decrement has just assigned, before any
    write to the column. *)
Definition transferred (f t : Z) (bf bt amount : float) (k : Z)
    (b : option float) : option float :=
  if k =? t then
    store_float
      (PrimFloat.add (if f =? t then PrimFloat.sub bf amount else bt) amount)
  else if k =? f then store_float (PrimFloat.sub bf amount)
  else b.

(** The account rows once those assignments are flushed. *)
Definition transfer_rows (f t : Z) (bf bt amount : float)
    (rows : list Account.t) : list Account.t :=
  map (fun row =>
         Account.with_balance row
           (transferred f t bf bt amount (Account.id row) (Account.balance row)))
      rows.

(** A session program that never commits. *)
Definition read_only {A} (m : M A) : Prop :=
  forall s, bind (snd (m s)) = bind s.

(** The loaded objects of a session are the rows of [db], unmodified. *)
Definition clean (db : Database) (s : Session) : Prop :=
  bind s = db /\
  forall k o, identity_map s !! k = Some o -> select_account db k = Some o.

(** [x] is a number: neither NaN nor an infinity. *)
Definition finite (x : float) : Prop :=
  (neg_infinity <? x)%float = true /\ (x <? infinity)%float = true.

(** Keys handed out one after the other, from 1, and never given up. *)
Definition sequential (ks : list Z) : Prop :=
  ks = map Z.of_nat (seq 1 (length ks)).

Definition sequential_ids (db : Database) : Prop :=
  sequential (map Customer.id (tbl_customers db)) /\
  sequential (map Account.id (tbl_accounts db)) /\
  sequential (map Transaction.id (tbl_transactions db)).

(** The columns of an account row no resolver assigns to. *)
Definition account_key (a : Account.t) : Z * Z :=
  (Account.id a, Account.customer_id a).

(** The number of rows in the store. *)
Definition row_count (db : Database) : nat :=
  length (tbl_customers db) + length (tbl_accounts db) +
  length (tbl_transactions db).

(** A store with an account whose owner is missing, as a deletion made
    behind the service's back would leave it. *)
Definition orphaned : Database :=
  MkDatabase [Customer.Build 1 "Alice"]
             [Account.Build 1 1 (Some 100%float);
              Account.Build 2 7 (Some 5%float)] [].

(** ** Sample stores

    The store of the spec's first scenario: Alice with 100.0, Bob with 0.0. *)
Definition alice_bob : Database :=
  let db := snd (Mutation.create_customer "Alice" empty_db) in
  let db := snd (Mutation.create_account 1 100 db) in
  let db := snd (Mutation.create_customer "Bob" db) in
  snd (Mutation.create_account 2 0 db).

(** That store after Alice has paid Bob 40.0. *)
Definition alice_paid_bob : Database :=
  snd (Mutation.transfer_funds 1 2 40 alice_bob).

(** One customer whose account holds 2^53 + 2. *)
Definition alice_large : Database :=
  let db := snd (Mutation.create_customer "Alice" empty_db) in
  snd (Mutation.create_account 1 9007199254740994 db).

(** Alice and Bob with 2^53 each: the next float above is 2^53 + 2. *)
Definition alice_bob_large : Database :=
  let db := snd (Mutation.create_customer "Alice" empty_db) in
  let db := snd (Mutation.create_account 1 9007199254740992 db) in
  let db := snd (Mutation.create_customer "Bob" db) in
  snd (Mutation.create_account 2 9007199254740992 db).

(** Alice opened with an infinite balance and transferred an infinite
    amount to Bob: her balance is NULL. *)
Definition alice_null : Database :=
  let db := snd (Mutation.create_customer "Alice" empty_db) in
  let db := snd (Mutation.create_account 1 infinity db) in
  let db := snd (Mutation.create_customer "Bob" db) in
  let db := snd (Mutation.create_account 2 0 db) in
  snd (Mutation.transfer_funds 1 2 infinity db).

(** ** Binary64 on its specification *)

Definition SFnonneg (x : spec_float) : bool :=
  match x with
  | S754_zero _ => true
  | S754_infinity s | S754_finite s _ _ => negb s
  | S754_nan => false
  end.

(** * Properties *)

(** ** Binary64

    The primitive operations are specified by [SpecFloat] through the
    axioms of [FloatAxioms]; the facts below are proved on that
    specification and carried back to [float]. *)
Section Binary64.

Lemma SFleb_zero x : SFleb (S754_zero false) x = SFnonneg x.
Proof. by destruct x as [ | [] | | [] ? ?]. Qed.

Lemma SFcompare_antisym x y :
  SFcompare y x = CompOpp <$> SFcompare x y.
Proof.
  destruct x as [ [] | [] | | [] mx ex], y as [ [] | [] | | [] my ey]; try done;
    cbn; f_equal; rewrite (Z.compare_antisym ey ex);
    destruct (ey ?= ex); cbn; try done;
    rewrite (Pos.compare_cont_antisym _ _ Eq); cbn; by rewrite ?CompOpp_involutive.
Qed.

Lemma SFleb_not_ltb x y : SFleb x y = true -> SFltb y x = false.
Proof.
  unfold SFleb, SFltb. rewrite (SFcompare_antisym x y).
  by destruct (SFcompare x y) as [[]|].
Qed.

Lemma iter_pos_invariant {A} (P : A -> Prop) (f : A -> A) :
  (forall x, P x -> P (f x)) -> forall p x, P x -> P (SpecFloat.iter_pos f p x).
Proof.
  intros Hf p. induction p as [p IH|p IH|]; intros x Hx; cbn; auto.
Qed.

Lemma shr_1_nonneg mrs : 0 <= shr_m mrs -> 0 <= shr_m (shr_1 mrs).
Proof. destruct mrs as [[|[]|] r s]; cbn; lia. Qed.

Lemma shr_nonneg mrs e n : 0 <= shr_m mrs -> 0 <= shr_m (fst (shr mrs e n)).
Proof.
  intros H. destruct n; cbn; try done.
  by apply (iter_pos_invariant (fun r => 0 <= shr_m r)); [apply shr_1_nonneg|].
Qed.

Lemma shr_fexp_nonneg m e l :
  0 <= m -> 0 <= shr_m (fst (shr_fexp prec emax m e l)).
Proof.
  intros H. unfold shr_fexp. apply shr_nonneg. by destruct l as [|[]].
Qed.

Lemma round_nearest_even_nonneg m l : 0 <= m -> 0 <= round_nearest_even m l.
Proof. destruct l as [|[]]; cbn; try done. destruct (Z.even m); lia. lia. Qed.

Lemma binary_round_aux_nonneg m e l :
  0 <= m -> SFnonneg (binary_round_aux prec emax false m e l) = true.
Proof.
  intros H. unfold binary_round_aux.
  pose proof (shr_fexp_nonneg m e l H) as H1.
  destruct (shr_fexp prec emax m e l) as [mrs' e']. cbn [fst] in H1.
  pose proof (shr_fexp_nonneg _ e' loc_Exact
                (round_nearest_even_nonneg _ (loc_of_shr_record mrs') H1)) as H2.
  destruct (shr_fexp prec emax (round_nearest_even _ _) e' loc_Exact) as [mrs'' e''].
  cbn [fst] in H2. destruct (shr_m mrs'') as [|p|p]; [done| |lia].
  by destruct (_ <=? _).
Qed.

Lemma binary_normalize_nonneg m e :
  0 <= m -> SFnonneg (binary_normalize prec emax m e false) = true.
Proof.
  intros H. destruct m as [|p|p]; [done| |lia]. cbn [binary_normalize].
  unfold binary_round. destruct (shl_align _ _ _) as [mz ez].
  by apply binary_round_aux_nonneg.
Qed.


Lemma SFadd_nonneg x y :
  SFnonneg x = true -> SFnonneg y = true -> SFnonneg (SFadd prec emax x y) = true.
Proof.
  destruct x as [ [] | [] | | [] mx ex], y as [ [] | [] | | [] my ey]; try done.
  intros _ _. cbn [SFadd]. apply binary_normalize_nonneg. cbn. lia.
Qed.

Lemma digits2_pos_bounds m :
  2 ^ (Z.pos (digits2_pos m) - 1) <= Z.pos m < 2 ^ Z.pos (digits2_pos m).
Proof.
  induction m as [m IH|m IH|]; cbn [digits2_pos]; [| |cbn; lia];
    rewrite Pos2Z.inj_succ, Z.pow_succ_r by lia;
    replace (Z.succ (Z.pos (digits2_pos m)) - 1)
      with (Z.succ (Z.pos (digits2_pos m) - 1)) by lia;
    rewrite Z.pow_succ_r by lia; lia.
Qed.

Lemma iter_xO_double m d : 2 * Z.pos m <= Z.pos (Pos.iter xO m d).
Proof.
  induction d as [|d IH] using Pos.peano_ind; [cbn; lia|].
  rewrite Pos.iter_succ. lia.
Qed.

(** On canonical mantissas the exponent decides the order. *)
Lemma bounded_exponent_lt mx ex my ey :
  bounded prec emax mx ex = true -> bounded prec emax my ey = true ->
  ey < ex -> Z.pos my < 2 * Z.pos mx.
Proof.
  unfold bounded, canonical_mantissa, fexp, FloatOps.emin, SpecFloat.emin, prec, emax.
  intros [Hx _]%andb_prop [Hy _]%andb_prop Hlt.
  apply Z.eqb_eq in Hx, Hy.
  pose proof (digits2_pos_bounds mx) as [Bx _].
  pose proof (digits2_pos_bounds my) as [_ By].
  assert (Z.pos (digits2_pos mx) = 53) as Dx by lia.
  assert (Z.pos (digits2_pos my) <= 53) as Dy by lia.
  rewrite Dx in Bx.
  pose proof (Z.pow_le_mono_r 2 _ 53 ltac:(lia) Dy).
  change (2 ^ (53 - 1)) with 4503599627370496 in Bx.
  change (2 ^ 53) with 9007199254740992 in *. lia.
Qed.

Lemma SFsub_nonneg x y :
  valid_binary x = true -> valid_binary y = true ->
  SFnonneg y = true -> SFltb y (S754_infinity false) = true ->
  SFleb y x = true ->
  SFnonneg (SFsub prec emax x y) = true.
Proof.
  intros Vx Vy Hy Hfin Hle.
  destruct x as [ [] | [] | | [] mx ex], y as [ [] | [] | | [] my ey]; try done.
  cbn [SFsub cond_Zopp]. apply binary_normalize_nonneg.
  cbn in Vx, Vy. unfold SFleb in Hle. cbn in Hle.
  unfold shl_align.
  destruct (Z.compare_spec ey ex) as [->|Hlt|Hgt]; [| |done].
  - rewrite Z.min_id, Z.sub_diag. cbn [fst].
    rewrite Pos.compare_cont_spec in Hle. cbn in Hle.
    pose proof (Pos.compare_spec my mx) as Hc. destruct Hc; try done; lia.
  - rewrite Z.min_r, Z.sub_diag by lia. cbn [fst].
    pose proof (bounded_exponent_lt mx ex my ey Vx Vy Hlt).
    destruct (ey - ex) as [|d|d] eqn:Hd; try lia. cbn [fst].
    pose proof (iter_xO_double mx d). lia.
Qed.

Lemma SFsub_SFadd_opp x y :
  SFsub prec emax x y = SFadd prec emax x (SFopp y).
Proof.
  destruct x as [ [] | [] | | sx mx ex], y as [ [] | [] | | sy my ey]; try done.
  cbn [SFsub SFadd SFopp]. f_equal.
  destruct sy; cbn [negb cond_Zopp]; lia.
Qed.

Lemma SFadd_SFsub_opp x y :
  SFadd prec emax x y = SFsub prec emax x (SFopp y).
Proof.
  rewrite SFsub_SFadd_opp. f_equal. by destruct y as [ [] | [] | | [] ? ?].
Qed.

Lemma SFabs_negative y :
  SFltb y (S754_zero false) = true -> SFabs y = SFopp y.
Proof. by destruct y as [ [] | [] | | [] ? ?]. Qed.


Lemma Prim2SF_zero : Prim2SF 0 = S754_zero false.
Proof. reflexivity. Qed.

Lemma Prim2SF_infinity : Prim2SF infinity = S754_infinity false.
Proof. reflexivity. Qed.

Lemma float_leb_not_ltb (x y : float) :
  (x <=? y)%float = true -> (y <? x)%float = false.
Proof. rewrite leb_spec, ltb_spec. apply SFleb_not_ltb. Qed.

Lemma float_nonneg_spec (x : float) :
  (0 <=? x)%float = SFnonneg (Prim2SF x).
Proof. by rewrite leb_spec, Prim2SF_zero, SFleb_zero. Qed.

Lemma float_add_nonneg (x y : float) :
  (0 <=? x)%float = true -> (0 <=? y)%float = true ->
  (0 <=? x + y)%float = true.
Proof.
  rewrite !float_nonneg_spec, add_spec. apply SFadd_nonneg.
Qed.

Lemma float_sub_nonneg (x y : float) :
  (0 <=? y)%float = true -> (y <? infinity)%float = true ->
  (y <=? x)%float = true ->
  (0 <=? x - y)%float = true.
Proof.
  rewrite !float_nonneg_spec, sub_spec, ltb_spec, leb_spec, Prim2SF_infinity.
  apply SFsub_nonneg; apply Prim2SF_valid.
Qed.

Lemma float_sub_negative (x y : float) :
  (y <? 0)%float = true -> (x - y)%float = (x + abs y)%float.
Proof.
  rewrite ltb_spec, Prim2SF_zero. intros Hy. apply Prim2SF_inj.
  rewrite sub_spec, add_spec, abs_spec, (SFabs_negative _ Hy).
  apply SFsub_SFadd_opp.
Qed.

Lemma float_add_negative (x y : float) :
  (y <? 0)%float = true -> (x + y)%float = (x - abs y)%float.
Proof.
  rewrite ltb_spec, Prim2SF_zero. intros Hy. apply Prim2SF_inj.
  rewrite sub_spec, add_spec, abs_spec, (SFabs_negative _ Hy).
  apply SFadd_SFsub_opp.
Qed.

End Binary64.

(** ** Rows and keys *)
Section Keys.
Context {A : Type} (key : A -> Z).
Implicit Types (rows : list A) (k : Z) (r : A).

Lemma find_key_eq rows k r :
  find (fun r => key r =? k) rows = Some r -> key r = k.
Proof. intros [_ H]%find_some. by apply Z.eqb_eq. Qed.

Lemma find_key_elem rows k r :
  find (fun r => key r =? k) rows = Some r -> r ∈ rows.
Proof. intros [H _]%find_some. by apply list_elem_of_In. Qed.

Lemma find_key_None rows k :
  find (fun r => key r =? k) rows = None <-> k ∉ map key rows.
Proof.
  induction rows as [|r rows IH]; cbn.
  - split; [intros _ H; inversion H|done].
  - rewrite not_elem_of_cons. destruct (Z.eqb_spec (key r) k) as [Heq|Hne].
    + split; [done|]. intros [? _]. congruence.
    + rewrite IH. split; [|tauto]. split; [congruence|done].
Qed.

Lemma find_key_app rows1 rows2 k :
  find (fun r => key r =? k) (rows1 ++ rows2) =
  match find (fun r => key r =? k) rows1 with
  | Some r => Some r
  | None => find (fun r => key r =? k) rows2
  end.
Proof.
  induction rows1 as [|r rows1 IH]; cbn; [done|]. by destruct (key r =? k).
Qed.

Lemma find_key_NoDup rows r :
  NoDup (map key rows) -> r ∈ rows ->
  find (fun r' => key r' =? key r) rows = Some r.
Proof.
  induction rows as [|r' rows IH]; cbn; intros Hnd Hin; [inversion Hin|].
  apply NoDup_cons in Hnd as [Hnotin Hnd].
  apply elem_of_cons in Hin as [->|Hin]; [by rewrite Z.eqb_refl|].
  destruct (Z.eqb_spec (key r') (key r)) as [Heq|_]; [|by apply IH].
  exfalso. apply Hnotin. rewrite Heq. by apply list_elem_of_fmap_2.
Qed.

Lemma find_key_map (g : A -> A) rows k :
  (forall r, key (g r) = key r) ->
  find (fun r => key r =? k) (map g rows) = g <$> find (fun r => key r =? k) rows.
Proof.
  intros Hg. induction rows as [|r rows IH]; cbn; [done|].
  rewrite Hg. by destruct (key r =? k).
Qed.

End Keys.

Lemma foldr_max_upper k0 ks :
  k0 <= foldr Z.max k0 ks /\ forall k, k ∈ ks -> k <= foldr Z.max k0 ks.
Proof.
  induction ks as [|k1 ks [IH0 IH]]; cbn [foldr].
  - split; [lia|]. by intros k ?%elem_of_nil.
  - split; [lia|]. intros k [->|Hin]%elem_of_cons; [lia|].
    specialize (IH _ Hin). lia.
Qed.

Lemma fresh_id_lt ks k : k ∈ ks -> k < fresh_id ks.
Proof.
  destruct ks as [|k0 ks]; [by intros ?%elem_of_nil|]. cbn [fresh_id].
  destruct (foldr_max_upper k0 ks) as [H0 H].
  intros [->|Hin]%elem_of_cons; [lia|]. specialize (H _ Hin). lia.
Qed.

Lemma fresh_id_fresh ks : fresh_id ks ∉ ks.
Proof. intros H%fresh_id_lt. lia. Qed.

Lemma find_key_fresh {A} (key : A -> Z) (rows : list A) (r : A) :
  key r = fresh_id (map key rows) ->
  find (fun r' => key r' =? fresh_id (map key rows)) (rows ++ [r]) = Some r.
Proof.
  intros Hr. rewrite find_key_app.
  pose proof (fresh_id_fresh (map key rows)) as Hfresh.
  apply find_key_None in Hfresh. rewrite Hfresh. cbn.
  by rewrite Hr, Z.eqb_refl.
Qed.

(** ** The session primitives *)

Lemma flush_updates_clean s : dirty s = ∅ -> flush_updates s = tbl_accounts (bind s).
Proof.
  intros Hd. unfold flush_updates. rewrite Hd.
  rewrite <- (map_id (tbl_accounts (bind s))) at 2. apply map_ext.
  intros row. case_decide; [set_solver|done].
Qed.

(** ** The mutations as functions of the store *)

Lemma create_customer_spec name db :
  Mutation.create_customer name db =
  let k := fresh_id (map Customer.id (tbl_customers db)) in
  (Ok (CustomerType.Build k name),
   MkDatabase (tbl_customers db ++ [Customer.Build k name])
              (tbl_accounts db) (tbl_transactions db)).
Proof.
  unfold Mutation.create_customer, with_session, get_db, mbind, add, commit.
  cbn [new bind app insert_all insert keys length].
  rewrite flush_updates_clean by done. cbn [bind].
  unfold refresh_Customer, mbind, primary_key, select_customer. cbn.
  by rewrite (find_key_fresh Customer.id).
Qed.

Lemma create_account_spec customer_id initial_balance db :
  Mutation.create_account customer_id initial_balance db =
  match select_customer db customer_id with
  | None => (Raise (ValueError "Customer not found"), db)
  | Some customer =>
      let k := fresh_id (map Account.id (tbl_accounts db)) in
      (Ok (AccountType.Build k (store_float initial_balance)
             (customer_type customer)),
       MkDatabase (tbl_customers db)
                  (tbl_accounts db ++
                   [Account.Build k customer_id (store_float initial_balance)])
                  (tbl_transactions db))
  end.
Proof.
  unfold Mutation.create_account, with_session, get_db, mbind, query_Customer_first.
  cbn [bind]. destruct (select_customer db customer_id) as [customer|]; [|done].
  unfold add, commit.
  cbn [new bind app insert_all insert keys length].
  rewrite flush_updates_clean by done. cbn [bind].
  unfold refresh_Account, mbind, primary_key, select_account. cbn.
  by rewrite (find_key_fresh Account.id).
Qed.

(** One step of a session on concrete maps: project the session record, then
    resolve the lookup in the identity map. *)
Ltac session_step :=
  cbn [identity_map bind dirty new keys app insert_all insert];
  first [ rewrite lookup_insert_eq
        | rewrite lookup_insert_ne by done
        | rewrite lookup_empty ].

Ltac in_dirty :=
  rewrite ?elem_of_union, ?elem_of_singleton, ?elem_of_empty; tauto.

Lemma transfer_funds_spec f t amount db :
  Mutation.transfer_funds f t amount db =
  match select_account db f, select_account db t with
  | Some a, Some b =>
      match Account.balance a with
      | None => (Raise TypeError, db)
      | Some bf =>
          if (bf <? amount)%float then
            (Raise (ValueError "Insufficient balance"), db)
          else
            match (if f =? t then Some bf else Account.balance b) with
            | None => (Raise TypeError, db)
            | Some bt =>
                (Ok true,
                 MkDatabase (tbl_customers db)
                   (transfer_rows f t bf bt amount (tbl_accounts db))
                   (tbl_transactions db ++
                    [Transaction.Build
                       (fresh_id (map Transaction.id (tbl_transactions db)))
                       f t (store_float amount)]))
            end
      end
  | _, _ => (Raise (ValueError "Account not found"), db)
  end.
Proof.
  unfold Mutation.transfer_funds, with_session, get_db, mbind, query_Account_first.
  cbn [bind].
  destruct (select_account db f) as [a|] eqn:Ha.
  2:{ unfold load; cbn. by destruct (select_account db t). }
  pose proof (find_key_eq _ _ _ _ Ha) as Hia.
  unfold load; cbn [identity_map bind dirty new keys]. rewrite lookup_empty.
  cbn [identity_map bind dirty new keys].
  destruct (select_account db t) as [b|] eqn:Hb; [|done].
  pose proof (find_key_eq _ _ _ _ Hb) as Hib.
  rewrite Hia, Hib.
  unfold Account_get, Account_set_balance, add, commit, operand, ret, raise.
  destruct (Z.eqb_spec f t) as [<-|Hne].
  - assert (b = a) as -> by congruence. clear Hb Hib.
    destruct a as [ia ca [bf|]]; cbn [Account.balance] in *;
      repeat session_step; cbn [Account.balance]; [|done].
    destruct (bf <? amount)%float; [done|].
    repeat (repeat session_step; cbn [Account.balance Account.with_balance]).
    cbn [identity_map bind dirty new keys app insert_all insert
         tbl_customers tbl_accounts tbl_transactions].
    f_equal. f_equal.
    unfold flush_updates, transfer_rows, transferred.
    cbn [identity_map bind dirty new keys]. rewrite Z.eqb_refl.
    apply map_ext. intros row.
    destruct (Z.eqb_spec (Account.id row) f) as [->|Hrow].
    + rewrite decide_True by in_dirty. by rewrite lookup_insert_eq.
    + rewrite decide_False by in_dirty. by destruct row.
  - destruct a as [ia ca [bf|]], b as [ib cb bt]; cbn [Account.balance Account.id] in *;
      repeat session_step; cbn [Account.balance]; [|done].
    destruct (bf <? amount)%float; [done|].
    repeat (repeat session_step; cbn [Account.balance Account.with_balance]).
    destruct bt as [bt|]; [|done].
    repeat (repeat session_step; cbn [Account.balance Account.with_balance]).
    cbn [identity_map bind dirty new keys app insert_all insert
         tbl_customers tbl_accounts tbl_transactions].
    f_equal. f_equal.
    unfold flush_updates, transfer_rows, transferred.
    cbn [identity_map bind dirty new keys].
    destruct (Z.eqb_spec f t) as [|_]; [done|].
    apply map_ext. intros row.
    destruct (Z.eqb_spec (Account.id row) t) as [->|Hrt].
    { rewrite decide_True by in_dirty. by rewrite lookup_insert_eq. }
    destruct (Z.eqb_spec (Account.id row) f) as [->|Hrf].
    { rewrite decide_True by in_dirty.
      by rewrite lookup_insert_ne, lookup_insert_eq by done. }
    rewrite decide_False by in_dirty. by destruct row.
Qed.

(** The two ways a transfer ends. *)
Lemma transfer_funds_cases f t amount db :
  (exists e, Mutation.transfer_funds f t amount db = (Raise e, db)) \/
  (exists a b bf bt,
     select_account db f = Some a /\ select_account db t = Some b /\
     Account.balance a = Some bf /\ (bf <? amount)%float = false /\
     (if f =? t then Some bf else Account.balance b) = Some bt /\
     Mutation.transfer_funds f t amount db =
     (Ok true,
      MkDatabase (tbl_customers db)
        (transfer_rows f t bf bt amount (tbl_accounts db))
        (tbl_transactions db ++
         [Transaction.Build
            (fresh_id (map Transaction.id (tbl_transactions db)))
            f t (store_float amount)]))).
Proof.
  rewrite transfer_funds_spec.
  destruct (select_account db f) as [a|]; [|by left; eexists].
  destruct (select_account db t) as [b|]; [|by left; eexists].
  destruct (Account.balance a) as [bf|] eqn:Hbf; [|by left; eexists].
  destruct (bf <? amount)%float eqn:Hlt; [by left; eexists|].
  destruct (if f =? t then Some bf else Account.balance b) as [bt|] eqn:Hbt;
    [|by left; eexists].
  right. exists a, b, bf, bt. by repeat split.
Qed.
(** ** Programs that never commit *)

Lemma bind_load row s : bind (load row s) = bind s.
Proof. unfold load. by destruct (identity_map s !! Account.id row). Qed.

Lemma bind_foldl_load rows s :
  bind (foldl (fun s' row => load row s') s rows) = bind s.
Proof.
  revert s. induction rows as [|row rows IH]; intros s; cbn; [done|].
  by rewrite IH, bind_load.
Qed.

Lemma read_only_ret {A} (a : A) : read_only (ret a).
Proof. done. Qed.

Lemma read_only_raise {A} e : read_only (@raise A e).
Proof. done. Qed.

Lemma read_only_attr {A} (o : option A) : read_only (attr o).
Proof. by destruct o. Qed.

Lemma read_only_mbind {A B} (m : M A) (f : A -> M B) :
  read_only m -> (forall a, read_only (f a)) -> read_only (mbind m f).
Proof.
  intros Hm Hf s. unfold mbind. specialize (Hm s).
  destruct (m s) as [[a|e] s']; cbn in *; [|done]. by rewrite Hf.
Qed.

Lemma read_only_mapM {A B} (f : A -> M B) (l : list A) :
  (forall a, read_only (f a)) -> read_only (mapM f l).
Proof.
  intros Hf. induction l as [|x xs IH]; cbn [mapM]; [done|].
  apply read_only_mbind; [done|]. intros y.
  apply read_only_mbind; [done|]. intros ys. done.
Qed.

Lemma read_only_query_Customer_all : read_only query_Customer_all.
Proof. done. Qed.

Lemma read_only_query_Transaction_all : read_only query_Transaction_all.
Proof. done. Qed.

Lemma read_only_query_Account_all : read_only query_Account_all.
Proof. intros s. apply bind_foldl_load. Qed.

Lemma read_only_query_Customer_first k : read_only (query_Customer_first k).
Proof. done. Qed.

Lemma read_only_query_Account_first k : read_only (query_Account_first k).
Proof.
  intros s. unfold query_Account_first.
  destruct (select_account (bind s) k); [apply bind_load|done].
Qed.

Lemma read_only_Account_get ref : read_only (Account_get ref).
Proof. intros s. unfold Account_get. by destruct (identity_map s !! ref). Qed.

Lemma read_only_account_type ref : read_only (Query.account_type ref).
Proof.
  unfold Query.account_type.
  apply read_only_mbind; [apply read_only_Account_get|]. intros a.
  apply read_only_mbind; [apply read_only_query_Customer_first|]. intros c.
  apply read_only_mbind; [apply read_only_attr|]. intros c'. apply read_only_ret.
Qed.

Create HintDb read_only.

#[local] Hint Resolve read_only_ret read_only_raise read_only_attr
  read_only_query_Customer_all read_only_query_Transaction_all
  read_only_query_Account_all read_only_query_Customer_first
  read_only_query_Account_first read_only_Account_get
  read_only_account_type : read_only.

Lemma with_session_read_only {A} (m : M A) db :
  read_only m -> snd (with_session m db) = db.
Proof.
  intros Hm. unfold with_session. specialize (Hm (get_db db)).
  by destruct (m (get_db db)).
Qed.

Lemma customers_read_only db : snd (Query.customers db) = db.
Proof. done. Qed.

Lemma accounts_read_only db : snd (Query.accounts db) = db.
Proof.
  apply with_session_read_only.
  apply read_only_mbind; [auto with read_only|]. intros refs.
  apply read_only_mapM. auto with read_only.
Qed.

Lemma read_only_transaction_type x : read_only (Query.transaction_type x).
Proof.
  unfold Query.transaction_type, Transaction_from_account, Transaction_to_account.
  repeat (apply read_only_mbind; [auto with read_only|]; intros ?).
  auto with read_only.
Qed.

Lemma transactions_read_only db : snd (Query.transactions db) = db.
Proof.
  apply with_session_read_only.
  apply read_only_mbind; [auto with read_only|]. intros rows.
  apply read_only_mapM. apply read_only_transaction_type.
Qed.

(** ** The list resolvers on a store that satisfies the invariants *)

Lemma clean_get_db db : clean db (get_db db).
Proof. split; [done|]. intros k o. cbn. by rewrite lookup_empty. Qed.

Lemma clean_load db s row :
  clean db s -> select_account db (Account.id row) = Some row ->
  clean db (load row s) /\ identity_map (load row s) !! Account.id row = Some row.
Proof.
  intros [Hb Hm] Hrow. unfold load.
  destruct (identity_map s !! Account.id row) as [o|] eqn:Ho.
  - split; [done|]. pose proof (Hm _ _ Ho). congruence.
  - cbn. split; [|by rewrite lookup_insert_eq]. split; [done|].
    intros k o. cbn. rewrite lookup_insert. case_decide; [|by auto].
    intros [= <-]. congruence.
Qed.

Lemma load_lookup_mono s row k o :
  identity_map s !! k = Some o -> identity_map (load row s) !! k = Some o.
Proof.
  intros Hk. unfold load.
  destruct (identity_map s !! Account.id row) as [o'|] eqn:Ho; [done|].
  cbn. rewrite lookup_insert_ne; [done|]. congruence.
Qed.

Lemma clean_foldl_load db rows s :
  clean db s ->
  Forall (fun row => select_account db (Account.id row) = Some row) rows ->
  let s' := foldl (fun s' row => load row s') s rows in
  clean db s' /\
  Forall (fun row => identity_map s' !! Account.id row = Some row) rows.
Proof.
  intros Hs Hrows. revert s Hs.
  induction Hrows as [|row rows Hrow Hrows IH]; intros s Hs; cbn; [done|].
  destruct (clean_load db s row Hs Hrow) as [Hs1 Hl1].
  destruct (IH _ Hs1) as [Hc Hall]. split; [done|]. constructor; [|done].
  clear -Hl1. revert Hl1. generalize (load row s). clear s.
  induction rows as [|row' rows IH]; intros s Hl; cbn; [done|].
  apply IH. by apply load_lookup_mono.
Qed.

Lemma account_type_run db s ref a v :
  clean db s -> identity_map s !! ref = Some a -> account_view db a = Some v ->
  Query.account_type ref s = (Ok v, s).
Proof.
  intros [Hb _] Hget Hview.
  unfold Query.account_type, mbind, Account_get, Account_customer,
    query_Customer_first.
  rewrite Hget, Hb. unfold account_view in Hview.
  destruct (select_customer db (Account.customer_id a)) as [c|]; [|done].
  cbn in Hview |- *. injection Hview as <-. done.
Qed.

Lemma mapM_account_type db s rows :
  clean db s ->
  Forall (fun row => identity_map s !! Account.id row = Some row) rows ->
  Forall (fun row => is_Some (account_view db row)) rows ->
  exists views,
    mapM Query.account_type (map Account.id rows) s = (Ok views, s) /\
    Forall2 (fun row v => account_view db row = Some v) rows views.
Proof.
  intros Hs Hl Hv. induction rows as [|row rows IH]; cbn [map mapM].
  - exists []. by split.
  - apply Forall_cons in Hl as [Hl1 Hl], Hv as [[v Hv1] Hv].
    destruct (IH Hl Hv) as (views & Hrun & Hviews).
    exists (v :: views). split; [|by constructor].
    unfold mbind. rewrite (account_type_run db s _ row v) by done.
    by rewrite Hrun.
Qed.

Lemma integrity_select_account db row :
  integrity db -> row ∈ tbl_accounts db ->
  select_account db (Account.id row) = Some row.
Proof. intros (_ & Hnd & _) Hin. by apply (find_key_NoDup Account.id). Qed.

Lemma integrity_account_view db row :
  integrity db -> row ∈ tbl_accounts db -> is_Some (account_view db row).
Proof.
  intros (_ & _ & _ & Hc & _) Hin. rewrite Forall_forall in Hc.
  destruct (Hc _ Hin) as [c Hsel]. unfold account_view. rewrite Hsel. by eexists.
Qed.

Lemma accounts_spec db :
  integrity db ->
  exists views,
    Query.accounts db = (Ok views, db) /\
    Forall2 (fun row v => account_view db row = Some v) (tbl_accounts db) views.
Proof.
  intros Hi. unfold Query.accounts, with_session, mbind, query_Account_all.
  cbn [bind get_db].
  assert (Forall (fun row => select_account db (Account.id row) = Some row)
            (tbl_accounts db)) as Hrows.
  { apply Forall_forall. intros row. by apply integrity_select_account. }
  destruct (clean_foldl_load db _ _ (clean_get_db db) Hrows) as [Hc Hl].
  cbn zeta in Hc, Hl.
  destruct (mapM_account_type db _ (tbl_accounts db) Hc Hl) as (views & Hrun & Hv).
  { apply Forall_forall. intros row. by apply integrity_account_view. }
  exists views. split; [|done]. rewrite Hrun.
  f_equal. apply Hc.
Qed.

Lemma select_account_self db k a :
  select_account db k = Some a -> select_account db (Account.id a) = Some a.
Proof. intros H. by rewrite (find_key_eq _ _ _ _ H). Qed.

Lemma transaction_type_run db s x v :
  clean db s -> transaction_view db x = Some v ->
  exists s', Query.transaction_type x s = (Ok v, s') /\ clean db s'.
Proof.
  intros Hs Hview. unfold transaction_view in Hview.
  destruct (select_account db (Transaction.from_account_id x)) as [f|] eqn:Hf;
    [|done].
  cbn in Hview. destruct (account_view db f) as [vf|] eqn:Hvf; [|done].
  cbn in Hview.
  destruct (select_account db (Transaction.to_account_id x)) as [t|] eqn:Ht;
    [|done].
  cbn in Hview. destruct (account_view db t) as [vt|] eqn:Hvt; [|done].
  cbn in Hview. injection Hview as <-.
  destruct (clean_load db s f Hs (select_account_self _ _ _ Hf)) as [Hs1 Hl1].
  destruct (clean_load db _ t Hs1 (select_account_self _ _ _ Ht)) as [Hs2 Hl2].
  exists (load t (load f s)). split; [|done].
  unfold Query.transaction_type, Transaction_from_account,
    Transaction_to_account, mbind, query_Account_first.
  destruct Hs as [Hb _]. rewrite Hb, Hf. cbn [attr ret].
  rewrite (account_type_run db _ _ f vf) by done.
  rewrite bind_load, Hb, Ht. cbn [attr ret].
  by rewrite (account_type_run db _ _ t vt).
Qed.

Lemma mapM_transaction_type db s rows :
  clean db s ->
  Forall (fun x => is_Some (transaction_view db x)) rows ->
  exists views s',
    mapM Query.transaction_type rows s = (Ok views, s') /\ clean db s' /\
    Forall2 (fun x v => transaction_view db x = Some v) rows views.
Proof.
  intros Hs Hv. revert s Hs.
  induction Hv as [|x rows [v Hx] Hv IH]; intros s Hs; cbn [mapM].
  - exists [], s. split; [done|]. split; [done|constructor].
  - destruct (transaction_type_run db s x v Hs Hx) as (s1 & Hrun1 & Hs1).
    destruct (IH _ Hs1) as (views & s' & Hrun & Hs' & Hviews).
    exists (v :: views), s'. split; [|split; [done|by constructor]].
    unfold mbind. by rewrite Hrun1, Hrun.
Qed.

Lemma integrity_transaction_view db x :
  integrity db -> x ∈ tbl_transactions db -> is_Some (transaction_view db x).
Proof.
  intros Hi Hin. pose proof Hi as (_ & _ & _ & _ & Hx).
  rewrite Forall_forall in Hx. destruct (Hx _ Hin) as [[f Hf] [t Ht]].
  unfold transaction_view. rewrite Hf, Ht. cbn.
  destruct (integrity_account_view db f Hi (find_key_elem _ _ _ _ Hf)) as [vf ->].
  destruct (integrity_account_view db t Hi (find_key_elem _ _ _ _ Ht)) as [vt ->].
  by eexists.
Qed.

Lemma transactions_spec db :
  integrity db ->
  exists views,
    Query.transactions db = (Ok views, db) /\
    Forall2 (fun x v => transaction_view db x = Some v)
            (tbl_transactions db) views.
Proof.
  intros Hi. unfold Query.transactions, with_session, mbind, query_Transaction_all.
  cbn [bind get_db].
  destruct (mapM_transaction_type db (get_db db) (tbl_transactions db)
              (clean_get_db db)) as (views & s' & Hrun & Hs' & Hv).
  { apply Forall_forall. intros x. by apply integrity_transaction_view. }
  exists views. split; [|done]. rewrite Hrun.
  f_equal. apply Hs'.
Qed.

Lemma customers_spec db :
  Query.customers db = (Ok (map customer_type (tbl_customers db)), db).
Proof. done. Qed.

(** ** The data-model invariants hold in every reachable store *)

Lemma find_key_app_is_Some {A} (key : A -> Z) rows1 rows2 k :
  is_Some (find (fun r => key r =? k) rows1) ->
  is_Some (find (fun r => key r =? k) (rows1 ++ rows2)).
Proof. intros [r Hr]. rewrite find_key_app, Hr. by eexists. Qed.

Lemma NoDup_snoc_fresh {A} (key : A -> Z) rows r :
  NoDup (map key rows) -> key r = fresh_id (map key rows) ->
  NoDup (map key (rows ++ [r])).
Proof.
  intros Hnd Hr. rewrite map_app. apply NoDup_app. split; [done|]. split.
  - intros k Hk [->|[]%elem_of_nil]%elem_of_cons.
    rewrite Hr in Hk. by apply fresh_id_fresh in Hk.
  - apply NoDup_singleton.
Qed.

Lemma transfer_rows_id f t bf bt amount rows :
  map Account.id (transfer_rows f t bf bt amount rows) = map Account.id rows.
Proof.
  unfold transfer_rows. rewrite map_map. by apply map_ext.
Qed.

Lemma transfer_rows_select f t bf bt amount db k :
  is_Some (select_account db k) ->
  is_Some (find (fun a => Account.id a =? k)
             (transfer_rows f t bf bt amount (tbl_accounts db))).
Proof.
  intros [a Ha]. unfold transfer_rows.
  rewrite (find_key_map Account.id) by done.
  unfold select_account in Ha. rewrite Ha. by eexists.
Qed.

Lemma integrity_empty : integrity empty_db.
Proof. repeat split; constructor. Qed.

Lemma integrity_create_customer name db :
  integrity db -> integrity (snd (Mutation.create_customer name db)).
Proof.
  intros (Hc & Ha & Hx & Hac & Hxa). rewrite create_customer_spec. cbn.
  repeat split; try done.
  - by apply (NoDup_snoc_fresh Customer.id).
  - eapply Forall_impl; [exact Hac|]. intros a. unfold select_customer. cbn.
    apply find_key_app_is_Some.
Qed.

Lemma integrity_create_account customer_id initial_balance db :
  integrity db ->
  integrity (snd (Mutation.create_account customer_id initial_balance db)).
Proof.
  intros Hi. rewrite create_account_spec.
  destruct (select_customer db customer_id) as [c|] eqn:Hsel; [|done].
  destruct Hi as (Hc & Ha & Hx & Hac & Hxa). cbn.
  repeat split; try done.
  - by apply (NoDup_snoc_fresh Account.id).
  - apply Forall_app. split; [done|]. constructor; [|constructor].
    unfold select_customer in *. cbn. rewrite Hsel. by eexists.
  - eapply Forall_impl; [exact Hxa|]. intros x. unfold select_account. cbn.
    intros [??]. split; by apply find_key_app_is_Some.
Qed.

Lemma integrity_transfer_funds f t amount db :
  integrity db -> integrity (snd (Mutation.transfer_funds f t amount db)).
Proof.
  intros Hi.
  destruct (transfer_funds_cases f t amount db)
    as [[e ->]|(a & b & bf & bt & Hf & Ht & _ & _ & _ & ->)]; [done|].
  destruct Hi as (Hc & Ha & Hx & Hac & Hxa).
  unfold integrity, select_customer, select_account.
  cbn [snd tbl_customers tbl_accounts tbl_transactions].
  repeat split; try done.
  - by rewrite transfer_rows_id.
  - by apply (NoDup_snoc_fresh Transaction.id).
  - unfold transfer_rows. apply Forall_map.
    eapply Forall_impl; [exact Hac|]. by intros row.
  - apply Forall_app. split.
    + eapply Forall_impl; [exact Hxa|]. intros x.
      intros [??]. split; by apply transfer_rows_select.
    + constructor; [|constructor]. cbn.
      split; apply transfer_rows_select; by rewrite ?Hf, ?Ht.
Qed.

Lemma committed_snd {A} (r : result A * Database) db' :
  committed r = Some db' -> snd r = db'.
Proof. destruct r as [[a|e] db'']; cbn; congruence. Qed.

Lemma integrity_perform op db db' :
  integrity db -> perform op db = Some db' -> integrity db'.
Proof.
  intros Hi Hop. destruct op; cbn in Hop; apply committed_snd in Hop as <-.
  - by apply integrity_create_customer.
  - by apply integrity_create_account.
  - by apply integrity_transfer_funds.
Qed.

Lemma reachable_integrity db : reachable db -> integrity db.
Proof.
  induction 1 as [|db op db' _ IH Hop]; [apply integrity_empty|].
  by apply (integrity_perform op db).
Qed.

Lemma reachable_perform_all ops db db' :
  reachable db -> perform_all ops db = Some db' -> reachable db'.
Proof.
  revert db. induction ops as [|op ops IH]; intros db Hdb; cbn.
  - by intros [= <-].
  - destruct (perform op db) as [db1|] eqn:Hop; [|done].
    apply IH. by apply (reachable_step db op).
Qed.

(** ** What the column makes of a float *)

Lemma SFeqb_refl x : x <> S754_nan -> SFeqb x x = true.
Proof.
  unfold SFeqb. destruct x as [ [] | [] | | [] m e]; cbn; try done;
    intros _; by rewrite Z.compare_refl, Pos.compare_cont_refl.
Qed.



Lemma nonneg_not_nan x : nonneg x -> is_nan x = false.
Proof.
  unfold nonneg, is_nan. rewrite float_nonneg_spec, FloatAxioms.eqb_spec. intros Hx.
  rewrite SFeqb_refl; [done|]. by intros Hnan; rewrite Hnan in Hx.
Qed.



Lemma store_float_nonneg x : nonneg x -> nonneg_balance (store_float x).
Proof.
  intros Hx. unfold store_float. rewrite (nonneg_not_nan x Hx).
  by destruct (x =? 0)%float.
Qed.

(** ** Balances after a transfer *)

Lemma balance_of_Some db k b :
  balance_of db k = Some b <->
  exists a, select_account db k = Some a /\ Account.balance a = Some b.
Proof.
  unfold balance_of. destruct (select_account db k) as [a|]; cbn.
  - split; [by exists a|by intros (a' & [= <-] & ?)].
  - split; [done|]. by intros (a & ? & _).
Qed.

Lemma balance_of_transfer_rows f t bf bt amount db k :
  find (fun a => Account.id a =? k)
       (transfer_rows f t bf bt amount (tbl_accounts db)) ≫= Account.balance =
  select_account db k ≫=
    (fun a => transferred f t bf bt amount k (Account.balance a)).
Proof.
  unfold select_account, transfer_rows.
  rewrite (find_key_map Account.id) by done.
  destruct (find _ _) as [a|] eqn:Ha; [|done]. cbn.
  by rewrite (find_key_eq _ _ _ _ Ha).
Qed.

Lemma transferred_source f t bf bt amount b :
  f <> t -> transferred f t bf bt amount f b = store_float (bf - amount)%float.
Proof.
  intros Hne. unfold transferred.
  destruct (Z.eqb_spec f t); [done|]. by rewrite Z.eqb_refl.
Qed.

Lemma transferred_destination f t bf bt amount b :
  f <> t -> transferred f t bf bt amount t b = store_float (bt + amount)%float.
Proof.
  intros Hne. unfold transferred. rewrite Z.eqb_refl.
  by destruct (Z.eqb_spec f t).
Qed.


Lemma transferred_other f t bf bt amount k b :
  k <> f -> k <> t -> transferred f t bf bt amount k b = b.
Proof.
  intros Hf Ht. unfold transferred.
  destruct (Z.eqb_spec k t); [done|]. by destruct (Z.eqb_spec k f).
Qed.

(** A transfer that passes every check, in terms of balances: both accounts
    hold a float, and the source is not below the amount. *)
Lemma transfer_funds_success db f t amount bf bt :
  balance_of db f = Some bf -> balance_of db t = Some bt ->
  (bf <? amount)%float = false ->
  exists db',
    Mutation.transfer_funds f t amount db = (Ok true, db') /\
    tbl_customers db' = tbl_customers db /\
    (forall k,
       balance_of db' k =
       select_account db k ≫=
         (fun a => transferred f t bf bt amount k (Account.balance a))) /\
    tbl_transactions db' =
    tbl_transactions db ++
    [Transaction.Build (fresh_id (map Transaction.id (tbl_transactions db)))
       f t (store_float amount)].
Proof.
  intros (a & Ha & Hbf)%balance_of_Some (b & Hb & Hbt)%balance_of_Some Hlt.
  rewrite transfer_funds_spec, Ha, Hb, Hbf, Hlt.
  destruct (Z.eqb_spec f t) as [<-|Hne].
  - assert (bt = bf) as -> by congruence.
    eexists. split; [done|]. split; [done|]. split; [|done]. intros k.
    apply balance_of_transfer_rows.
  - rewrite Hbt. eexists. split; [done|]. split; [done|]. split; [|done].
    intros k. apply balance_of_transfer_rows.
Qed.

Lemma balance_of_unchanged db k :
  select_account db k ≫= (fun a => Account.balance a) = balance_of db k.
Proof. done. Qed.
(** ** Non-negative balances *)

Lemma float_ltb_false_leb (x y : float) :
  nonneg x -> nonneg y -> (x <? y)%float = false -> (y <=? x)%float = true.
Proof.
  unfold nonneg. rewrite !float_nonneg_spec, ltb_spec, leb_spec.
  unfold SFltb, SFleb. rewrite (SFcompare_antisym (Prim2SF x) (Prim2SF y)).
  destruct (Prim2SF x) as [ [] | [] | | [] ? ?], (Prim2SF y) as [ [] | [] | | [] ? ?];
    try done; cbn; by repeat case_match.
Qed.

Lemma balances_nonneg_select db k a :
  balances_nonneg db -> select_account db k = Some a ->
  nonneg_balance (Account.balance a).
Proof.
  intros Hdb Ha%find_key_elem. unfold balances_nonneg in Hdb.
  rewrite Forall_forall in Hdb. by apply Hdb.
Qed.

Lemma transferred_nonneg f t bf bt amount k b :
  nonneg bf -> nonneg bt -> nonneg_balance b -> nonneg amount ->
  below_infinity amount -> (bf <? amount)%float = false ->
  nonneg_balance (transferred f t bf bt amount k b).
Proof.
  intros Hbf Hbt Hb Ha Hfin Hlt.
  assert (nonneg (bf - amount)%float) as Hsub.
  { apply float_sub_nonneg; [done..|]. by apply float_ltb_false_leb. }
  unfold transferred.
  repeat case_match; try done; apply store_float_nonneg; try done;
    by apply float_add_nonneg.
Qed.

Lemma balances_nonneg_create_customer name db :
  balances_nonneg db -> balances_nonneg (snd (Mutation.create_customer name db)).
Proof. by rewrite create_customer_spec. Qed.

Lemma balances_nonneg_create_account customer_id initial_balance db :
  balances_nonneg db -> nonneg initial_balance ->
  balances_nonneg (snd (Mutation.create_account customer_id initial_balance db)).
Proof.
  intros Hdb Hb. rewrite create_account_spec.
  destruct (select_customer db customer_id); [|done].
  apply Forall_app. split; [done|].
  constructor; [|constructor]. by apply store_float_nonneg.
Qed.

Lemma balances_nonneg_transfer_funds f t amount db :
  balances_nonneg db -> nonneg amount -> below_infinity amount ->
  balances_nonneg (snd (Mutation.transfer_funds f t amount db)).
Proof.
  intros Hdb Ha Hfin.
  destruct (transfer_funds_cases f t amount db)
    as [[e ->]|(a & b & bf & bt & Hf & Ht & Hbf & Hlt & Hbt & ->)]; [done|].
  pose proof (balances_nonneg_select db f a Hdb Hf) as Hna.
  pose proof (balances_nonneg_select db t b Hdb Ht) as Hnb.
  rewrite Hbf in Hna. cbn in Hna.
  assert (nonneg bt) as Hnt.
  { destruct (f =? t); [congruence|]. by rewrite Hbt in Hnb. }
  unfold balances_nonneg, transfer_rows. cbn [snd tbl_accounts].
  apply Forall_map. eapply Forall_impl; [exact Hdb|]. intros row Hrow. cbn.
  by apply transferred_nonneg.
Qed.
(** * The claims *)

(** ** transfer_funds *)

(** C1, as stated, fails: balances are binary64 floats, and an amount that is
    small against the destination's balance is rounded away.  On the
    reachable store where Alice and Bob hold 2^53 each, the transfer of 1.0
    from Alice to Bob succeeds, takes Alice to 2^53 - 1 and leaves Bob at
    2^53, not 2^53 + 1. *)
Lemma transfer_rounds_destination :
  reachable alice_bob_large /\
  balance_of alice_bob_large 1 = Some 9007199254740992%float /\
  balance_of alice_bob_large 2 = Some 9007199254740992%float /\
  (1 <=? 9007199254740992)%float = true /\ (0 <? 1)%float = true /\
  Mutation.transfer_funds 1 2 1 alice_bob_large =
  (Ok true,
   MkDatabase [Customer.Build 1 "Alice"; Customer.Build 2 "Bob"]
              [Account.Build 1 1 (Some 9007199254740991%float);
               Account.Build 2 2 (Some 9007199254740992%float)]
              [Transaction.Build 1 1 2 (Some 1%float)]).
Proof.
  split.
  { apply (reachable_perform_all
             [CreateCustomer "Alice"; CreateAccount 1 9007199254740992;
              CreateCustomer "Bob"; CreateAccount 2 9007199254740992]
             empty_db); [apply reachable_empty|vm_compute; reflexivity]. }
  repeat split; vm_compute; reflexivity.
Qed.

(** C1, amended.  For distinct existing accounts A and B whose balances are
    floats (not NULL) and an amount with A.balance >= amount >= 0,
    [transfer_funds(A, B, amount)] succeeds and returns [True].  A's balance
    becomes the binary64 difference [A.balance - amount] and B's the binary64
    sum [B.balance + amount], each rounded as [-=] and [+=] round and then
    written to the column ([store_float]: NaN, which only [inf - inf] gives
    here, as NULL, and -0.0 as 0.0).  Every other balance and the customers
    stay as they were, and the transactions table is the old one followed by
    exactly one new row (A, B, amount), the amount stored the same way. *)
Theorem transfer_funds_moves_amount db A B amount bA bB :
  A <> B ->
  balance_of db A = Some bA -> balance_of db B = Some bB ->
  (amount <=? bA)%float = true -> (0 <=? amount)%float = true ->
  exists db',
    Mutation.transfer_funds A B amount db = (Ok true, db') /\
    balance_of db' A = store_float (bA - amount)%float /\
    balance_of db' B = store_float (bB + amount)%float /\
    (forall k, k <> A -> k <> B -> balance_of db' k = balance_of db k) /\
    tbl_customers db' = tbl_customers db /\
    tbl_transactions db' =
    tbl_transactions db ++
    [Transaction.Build (fresh_id (map Transaction.id (tbl_transactions db)))
       A B (store_float amount)].
Proof.
  intros Hne HA HB Hle _.
  destruct (transfer_funds_success db A B amount bA bB HA HB
              (float_leb_not_ltb _ _ Hle)) as (db' & Hrun & Hc & Hbal & Hx).
  pose proof HA as (a & Ha & _)%balance_of_Some.
  pose proof HB as (b & Hb & _)%balance_of_Some.
  exists db'. repeat split; try done.
  - rewrite Hbal, Ha. cbn. by rewrite transferred_source.
  - rewrite Hbal, Hb. cbn. by rewrite transferred_destination.
  - intros k HkA HkB. rewrite Hbal, <- balance_of_unchanged.
    destruct (select_account db k); [|done]. cbn. by rewrite transferred_other.
Qed.

Lemma transfer_funds_moves_amount_witness :
  exists db',
    Mutation.transfer_funds 1 2 40 alice_bob = (Ok true, db') /\
    balance_of db' 1 = store_float (100 - 40)%float /\
    balance_of db' 2 = store_float (0 + 40)%float /\
    (forall k, k <> 1 -> k <> 2 -> balance_of db' k = balance_of alice_bob k) /\
    tbl_customers db' = tbl_customers alice_bob /\
    tbl_transactions db' =
    tbl_transactions alice_bob ++
    [Transaction.Build (fresh_id (map Transaction.id (tbl_transactions alice_bob)))
       1 2 (store_float 40)].
Proof.
  apply (transfer_funds_moves_amount alice_bob 1 2 40 100 0);
    [lia | vm_compute; reflexivity ..].
Defined.

(** C2. For existing accounts A and B (the same or not),
    [transfer_funds(A, B, amount)] with amount > A.balance raises
    [ValueError("Insufficient balance")], the spec's InsufficientFundsError;
    the store is left as it was: both balances are unchanged and no
    transaction row is created. *)
Theorem transfer_funds_insufficient_funds db A B amount bA :
  balance_of db A = Some bA -> is_Some (select_account db B) ->
  (bA <? amount)%float = true ->
  let '(r, db') := Mutation.transfer_funds A B amount db in
  r = Raise (ValueError "Insufficient balance") /\
  fails_with InsufficientFundsError r /\
  balance_of db' A = Some bA /\ balance_of db' B = balance_of db B /\
  tbl_transactions db' = tbl_transactions db /\
  db' = db.
Proof.
  intros HA [b Hb] Hlt.
  pose proof HA as (a & Ha & Hbal)%balance_of_Some.
  by rewrite transfer_funds_spec, Ha, Hb, Hbal, Hlt.
Qed.

Lemma transfer_funds_insufficient_funds_witness :
  let '(r, db') := Mutation.transfer_funds 1 2 1000 alice_bob in
  r = Raise (ValueError "Insufficient balance") /\
  fails_with InsufficientFundsError r /\
  balance_of db' 1 = Some 100%float /\
  balance_of db' 2 = balance_of alice_bob 2 /\
  tbl_transactions db' = tbl_transactions alice_bob /\
  db' = alice_bob.
Proof.
  apply (transfer_funds_insufficient_funds alice_bob 1 2 1000 100);
    [vm_compute; reflexivity | vm_compute; by eexists | vm_compute; reflexivity].
Defined.

(** C3. When at least one of the two ids names no account,
    [transfer_funds] raises [ValueError("Account not found")], the spec's
    NotFoundError; the store is left as it was: every balance is unchanged and
    no transaction row is created. *)
Theorem transfer_funds_account_not_found db A B amount :
  select_account db A = None \/ select_account db B = None ->
  let '(r, db') := Mutation.transfer_funds A B amount db in
  r = Raise (ValueError "Account not found") /\
  fails_with NotFoundError r /\
  (forall k, balance_of db' k = balance_of db k) /\
  tbl_transactions db' = tbl_transactions db /\
  db' = db.
Proof.
  intros H. rewrite transfer_funds_spec.
  destruct H as [-> | ->]; [done|]. by destruct (select_account db A).
Qed.

Lemma transfer_funds_account_not_found_witness :
  let '(r, db') := Mutation.transfer_funds 1 7 40 alice_bob in
  r = Raise (ValueError "Account not found") /\
  fails_with NotFoundError r /\
  (forall k, balance_of db' k = balance_of alice_bob k) /\
  tbl_transactions db' = tbl_transactions alice_bob /\
  db' = alice_bob.
Proof.
  apply (transfer_funds_account_not_found alice_bob 1 7 40).
  right. vm_compute. reflexivity.
Defined.
(** ** The balance invariant *)

(** C4, as stated, fails: in the reachable store that holds the single
    customer Alice and no account, [create_account(1, -5.0)] succeeds and
    leaves an account whose balance is negative. *)
Lemma negative_initial_balance_accepted :
  let db := MkDatabase [Customer.Build 1 "Alice"] [] [] in
  let db' := MkDatabase [Customer.Build 1 "Alice"]
                        [Account.Build 1 1 (Some (-5)%float)] [] in
  reachable db /\ balances_nonneg db /\
  perform (CreateAccount 1 (-5)) db = Some db' /\
  balance_of db' 1 = Some (-5)%float /\ (0 <=? -5)%float = false /\
  ~ balances_nonneg db'.
Proof.
  cbn zeta. split.
  { apply (reachable_step empty_db (CreateCustomer "Alice"));
      [apply reachable_empty|vm_compute; reflexivity]. }
  split; [constructor|]. split; [vm_compute; reflexivity|].
  split; [vm_compute; reflexivity|]. split; [vm_compute; reflexivity|].
  intros H. apply Forall_cons in H as [H _]. vm_compute in H. discriminate.
Qed.

(** The two conditions on a transfer are needed as well: a negative amount
    takes the destination below zero, and an infinite amount subtracted from
    an infinite balance assigns NaN to the source object, which the flush
    writes as NULL: no balance [>= 0] either. *)
Example negative_amount_breaks_invariant :
  Mutation.transfer_funds 1 2 (-40) alice_bob =
  (Ok true,
   MkDatabase [Customer.Build 1 "Alice"; Customer.Build 2 "Bob"]
              [Account.Build 1 1 (Some 140%float);
               Account.Build 2 2 (Some (-40)%float)]
              [Transaction.Build 1 1 2 (Some (-40)%float)]).
Proof. vm_compute. reflexivity. Qed.

Example infinite_amount_breaks_invariant :
  let db := MkDatabase [Customer.Build 1 "Alice"]
                       [Account.Build 1 1 (Some infinity);
                        Account.Build 2 1 (Some 0%float)] [] in
  Mutation.transfer_funds 1 2 infinity db =
  (Ok true,
   MkDatabase [Customer.Build 1 "Alice"]
              [Account.Build 1 1 None; Account.Build 2 1 (Some infinity)]
              [Transaction.Build 1 1 2 (Some infinity)]).
Proof. vm_compute. reflexivity. Qed.

(** C4, amended.  From a store in which every balance is non-negative, a
    successful [create_customer], a successful [create_account] whose initial
    balance is [>= 0], and a successful [transfer_funds] whose amount is
    [>= 0] and not infinite leave every balance non-negative. *)
Theorem balances_nonneg_preserved db op db' :
  balances_nonneg db -> admissible op -> perform op db = Some db' ->
  balances_nonneg db'.
Proof.
  intros Hdb Hop Hrun.
  destruct op; cbn in Hop, Hrun; apply committed_snd in Hrun as <-.
  - by apply balances_nonneg_create_customer.
  - by apply balances_nonneg_create_account.
  - destruct Hop. by apply balances_nonneg_transfer_funds.
Qed.

Lemma balances_nonneg_preserved_witness :
  balances_nonneg
    (MkDatabase [Customer.Build 1 "Alice"; Customer.Build 2 "Bob"]
                [Account.Build 1 1 (Some 60%float);
                 Account.Build 2 2 (Some 40%float)]
                [Transaction.Build 1 1 2 (Some 40%float)]).
Proof.
  apply (balances_nonneg_preserved alice_bob (TransferFunds 1 2 40)).
  - vm_compute. repeat constructor.
  - vm_compute. split; reflexivity.
  - vm_compute. reflexivity.
Defined.

(** ** create_account and create_customer *)




(** C6, as stated, fails: [create_customer("")] on the empty store succeeds
    and persists a customer row with the empty name. *)
Lemma empty_name_accepted :
  Mutation.create_customer "" empty_db =
  (Ok (CustomerType.Build 1 ""), MkDatabase [Customer.Build 1 ""] [] []).
Proof. vm_compute. reflexivity. Qed.

(** C6, amended.  [create_customer("")] does not fail: for every store it
    succeeds, appends one customer row with a fresh id and the empty name,
    and returns that customer; no ValidationError (and no other error) is
    raised. *)
Theorem create_customer_empty_name db :
  let k := fresh_id (map Customer.id (tbl_customers db)) in
  Mutation.create_customer "" db =
  (Ok (CustomerType.Build k ""),
   MkDatabase (tbl_customers db ++ [Customer.Build k ""])
              (tbl_accounts db) (tbl_transactions db)) /\
  ~ fails_with ValidationError (fst (Mutation.create_customer "" db)).
Proof. rewrite create_customer_spec. cbn. split; [done|tauto]. Qed.

(** ** The list resolvers *)

(** C7. Calling [accounts()] again on the store the first call leaves (no
    write in between) gives the same outcome: the same sequence of accounts,
    balances and embedded customers in the same order, and the same store. *)
Theorem accounts_idempotent db :
  let '(r1, db1) := Query.accounts db in
  let '(r2, db2) := Query.accounts db1 in
  r2 = r1 /\ db2 = db1 /\ db1 = db.
Proof.
  pose proof (accounts_read_only db) as H1.
  destruct (Query.accounts db) as [r1 db1] eqn:E1. cbn in H1. subst db1.
  by rewrite E1.
Qed.

(** C8. The three list resolvers leave every store exactly as it was, and
    [customers()] returns the (id, name) projection of the customer rows in
    table order.  On a store that satisfies the data-model invariants
    ([integrity], which holds in every reachable store) [accounts()] returns,
    in table order, each account row's id and balance with its owner's id and
    name, and [transactions()] each transaction row's id and amount with its
    source and destination account expanded the same way. *)
Theorem list_resolvers_pure db :
  (snd (Query.customers db) = db /\
   snd (Query.accounts db) = db /\
   snd (Query.transactions db) = db) /\
  fst (Query.customers db) = Ok (map customer_type (tbl_customers db)) /\
  (integrity db ->
   (exists views,
      fst (Query.accounts db) = Ok views /\
      Forall2 (fun row v => account_view db row = Some v)
              (tbl_accounts db) views) /\
   (exists views,
      fst (Query.transactions db) = Ok views /\
      Forall2 (fun x v => transaction_view db x = Some v)
              (tbl_transactions db) views)).
Proof.
  split; [|split; [done|]].
  - auto using customers_read_only, accounts_read_only, transactions_read_only.
  - intros Hi.
    destruct (accounts_spec db Hi) as (va & Ha & Hva).
    destruct (transactions_spec db Hi) as (vx & Hx & Hvx).
    split; [exists va|exists vx]; by rewrite ?Ha, ?Hx.
Qed.

Lemma list_resolvers_pure_witness :
  (exists views,
     fst (Query.accounts alice_bob) = Ok views /\
     Forall2 (fun row v => account_view alice_bob row = Some v)
             (tbl_accounts alice_bob) views) /\
  (exists views,
     fst (Query.transactions alice_bob) = Ok views /\
     Forall2 (fun x v => transaction_view alice_bob x = Some v)
             (tbl_transactions alice_bob) views).
Proof.
  apply (list_resolvers_pure alice_bob).
  apply (bool_decide_unpack _). vm_compute. reflexivity.
Defined.

(** ** Transfers to the same account and transfers of negative amounts *)




(** C10, as stated, fails twice over.  When A and B are the same account the
    increment undoes the decrement: the transfer of -40.0 from Alice's
    account to itself succeeds, and its balance is 100.0 afterwards, not
    140.0.  And between distinct accounts a small amount is rounded away:
    where Alice and Bob hold 2^53 each, the transfer of -1.0 from Alice to
    Bob succeeds, takes Bob to 2^53 - 1 and leaves Alice at 2^53. *)
Lemma negative_self_transfer_keeps_balance :
  (balance_of alice_bob 1 = Some 100%float /\
   (-40 <? 0)%float = true /\ (-40 <=? 100)%float = true /\
   Mutation.transfer_funds 1 1 (-40) alice_bob =
   (Ok true,
    MkDatabase [Customer.Build 1 "Alice"; Customer.Build 2 "Bob"]
               [Account.Build 1 1 (Some 100%float);
                Account.Build 2 2 (Some 0%float)]
               [Transaction.Build 1 1 1 (Some (-40)%float)]) /\
   (100 =? 100 + abs (-40))%float = false) /\
  (balance_of alice_bob_large 1 = Some 9007199254740992%float /\
   balance_of alice_bob_large 2 = Some 9007199254740992%float /\
   (-1 <? 0)%float = true /\ (-1 <=? 9007199254740992)%float = true /\
   Mutation.transfer_funds 1 2 (-1) alice_bob_large =
   (Ok true,
    MkDatabase [Customer.Build 1 "Alice"; Customer.Build 2 "Bob"]
               [Account.Build 1 1 (Some 9007199254740992%float);
                Account.Build 2 2 (Some 9007199254740991%float)]
               [Transaction.Build 1 1 2 (Some (-1)%float)])).
Proof. repeat split; vm_compute; reflexivity. Qed.

Lemma store_float_negative x :
  (x <? 0)%float = true -> store_float x = Some x.
Proof.
  intros Hx. unfold store_float, is_nan.
  rewrite !FloatAxioms.eqb_spec. rewrite ltb_spec in Hx.
  change (Prim2SF 0) with (S754_zero false) in *.
  by destruct (Prim2SF x) as [ [] | [] | | [] m e]; cbn in *;
    rewrite ?Z.compare_refl, ?Pos.compare_cont_refl.
Qed.

(** C10, amended.  For distinct existing accounts A and B whose balances are
    floats (not NULL) and a negative amount with A.balance >= amount,
    [transfer_funds(A, B, amount)] is not rejected: it returns [True].  A's
    balance becomes the binary64 sum [A.balance + |amount|] and B's the
    binary64 difference [B.balance - |amount|] (no check keeps it from going
    below zero), each rounded as the float operations round, so that a small
    amount can leave a large balance as it was, and then stored as the column
    stores floats ([store_float]: a NaN, which [inf - inf] gives, as NULL).
    One transaction row (A, B, amount) with the negative amount is
    inserted. *)
Theorem negative_transfer_reverses db A B amount bA bB :
  A <> B ->
  balance_of db A = Some bA -> balance_of db B = Some bB ->
  (amount <? 0)%float = true -> (amount <=? bA)%float = true ->
  exists db',
    Mutation.transfer_funds A B amount db = (Ok true, db') /\
    balance_of db' A = store_float (bA + abs amount)%float /\
    balance_of db' B = store_float (bB - abs amount)%float /\
    tbl_transactions db' =
    tbl_transactions db ++
    [Transaction.Build (fresh_id (map Transaction.id (tbl_transactions db)))
       A B (Some amount)].
Proof.
  intros Hne HA HB Hneg Hle.
  destruct (transfer_funds_success db A B amount bA bB HA HB
              (float_leb_not_ltb _ _ Hle)) as (db' & Hrun & Hc & Hbal & Hx).
  pose proof HA as (a & Ha & _)%balance_of_Some.
  pose proof HB as (b & Hb & _)%balance_of_Some.
  exists db'. repeat split; try done.
  - rewrite Hbal, Ha. cbn.
    by rewrite transferred_source, float_sub_negative.
  - rewrite Hbal, Hb. cbn.
    by rewrite transferred_destination, float_add_negative.
  - by rewrite Hx, store_float_negative.
Qed.

Lemma negative_transfer_reverses_witness :
  exists db',
    Mutation.transfer_funds 1 2 (-40) alice_bob = (Ok true, db') /\
    balance_of db' 1 = store_float (100 + abs (-40))%float /\
    balance_of db' 2 = store_float (0 - abs (-40))%float /\
    tbl_transactions db' =
    tbl_transactions alice_bob ++
    [Transaction.Build (fresh_id (map Transaction.id (tbl_transactions alice_bob)))
       1 2 (Some (-40)%float)].
Proof.
  apply (negative_transfer_reverses alice_bob 1 2 (-40) 100 0);
    [lia | vm_compute; reflexivity ..].
Defined.
(** ** The invariants of the data model and the scenarios of the spec *)

(** Primary keys are unique, every account references an existing customer
    and every transaction two existing accounts, in every store the service
    can reach. *)
Theorem reachable_store_integrity db : reachable db -> integrity db.
Proof. apply reachable_integrity. Qed.

Lemma reachable_store_integrity_witness : integrity alice_large.
Proof.
  apply (reachable_store_integrity alice_large).
  apply (reachable_step (snd (Mutation.create_customer "Alice" empty_db))
           (CreateAccount 1 9007199254740994));
    [|vm_compute; reflexivity].
  apply (reachable_step empty_db (CreateCustomer "Alice"));
    [apply reachable_empty|vm_compute; reflexivity].
Defined.

Example alice_bob_rows :
  alice_bob =
  MkDatabase [Customer.Build 1 "Alice"; Customer.Build 2 "Bob"]
             [Account.Build 1 1 (Some 100%float);
              Account.Build 2 2 (Some 0%float)] [].
Proof. vm_compute. reflexivity. Qed.

(** Section 8, first scenario: after the transfer of 40.0 the balances are
    60.0 and 40.0 and the transactions list has one entry of amount 40.0. *)
Example scenario_transfer_40 :
  Mutation.transfer_funds 1 2 40 alice_bob =
  (Ok true,
   MkDatabase [Customer.Build 1 "Alice"; Customer.Build 2 "Bob"]
              [Account.Build 1 1 (Some 60%float);
               Account.Build 2 2 (Some 40%float)]
              [Transaction.Build 1 1 2 (Some 40%float)]) /\
  fst (Query.transactions (snd (Mutation.transfer_funds 1 2 40 alice_bob))) =
  Ok [TransactionType.Build 1
        (AccountType.Build 1 (Some 60%float) (CustomerType.Build 1 "Alice"))
        (AccountType.Build 2 (Some 40%float) (CustomerType.Build 2 "Bob"))
        (Some 40%float)].
Proof. vm_compute. split; reflexivity. Qed.

(** Section 8, second scenario: the transfer of 1000.0 then fails and the
    balances stay 60.0 and 40.0. *)
Example scenario_transfer_1000 :
  let db := snd (Mutation.transfer_funds 1 2 40 alice_bob) in
  Mutation.transfer_funds 1 2 1000 db =
  (Raise (ValueError "Insufficient balance"), db) /\
  balance_of db 1 = Some 60%float /\ balance_of db 2 = Some 40%float.
Proof. vm_compute. repeat split; reflexivity. Qed.

(** * Further properties of the resolvers *)

(** ** What a mutation returns or raises *)

(** A mutation that raises has written nothing: whenever [create_account] or
    [transfer_funds] raises, whatever the exception, the store is the one the
    call was given.  This holds also when [transfer_funds] raises at the
    increment, after the decrement has been assigned to the source object:
    the assignment is never flushed. *)
Theorem failed_mutation_writes_nothing db :
  (forall customer_id initial_balance,
     match Mutation.create_account customer_id initial_balance db with
     | (Ok _, _) => True
     | (Raise _, db') => db' = db
     end) /\
  (forall from_account_id to_account_id amount,
     match Mutation.transfer_funds from_account_id to_account_id amount db with
     | (Ok _, _) => True
     | (Raise _, db') => db' = db
     end).
Proof.
  split.
  - intros c b. rewrite create_account_spec.
    by destruct (select_customer db c).
  - intros f t amount.
    by destruct (transfer_funds_cases f t amount db)
      as [[e ->]|(a & b & bf & bt & _ & _ & _ & _ & _ & ->)].
Qed.

(** [transfer_funds] returns [True] exactly when both ids name an account
    whose balance is a float (not NULL) and the source balance is not below
    the amount; it never returns [False]. *)
Theorem transfer_funds_succeeds_iff db f t amount :
  (fst (Mutation.transfer_funds f t amount db) = Ok true <->
   exists bf, balance_of db f = Some bf /\ is_Some (balance_of db t) /\
              (bf <? amount)%float = false) /\
  fst (Mutation.transfer_funds f t amount db) <> Ok false.
Proof.
  rewrite transfer_funds_spec. unfold balance_of.
  destruct (select_account db f) as [a|] eqn:Ha; cbn.
  2:{ split; [|done]. split; [done|]. by intros (? & ? & _). }
  destruct (select_account db t) as [b|] eqn:Hb; cbn.
  2:{ split; [|done]. split; [done|]. by intros (? & _ & [? ?] & _). }
  destruct (Account.balance a) as [bf|] eqn:Hbf; cbn.
  2:{ split; [|done]. split; [done|]. by intros (? & ? & _). }
  destruct (bf <? amount)%float eqn:Hlt; cbn.
  { split; [|done]. split; [done|]. intros (? & [= <-] & _ & ?). congruence. }
  destruct (Z.eqb_spec f t) as [->|Hne]; cbn.
  - split; [|done]. split; [|done]. intros _. exists bf.
    assert (b = a) as -> by congruence. rewrite Hbf. by eauto.
  - destruct (Account.balance b) as [bt|]; cbn.
    + split; [|done]. split; [|done]. intros _. exists bf. by eauto.
    + split; [|done]. split; [done|]. by intros (? & _ & [? ?] & _).
Qed.

(** A NULL balance makes [transfer_funds] raise [TypeError], at the
    comparison when it is the source's and at the increment when it is the
    destination's (and the source, holding a float, is not below the
    amount); the store stays as it was.  Such a balance is within the
    service's reach: it is what the flush writes for NaN. *)
Theorem transfer_funds_null_balance db A B amount a b :
  select_account db A = Some a -> select_account db B = Some b ->
  Account.balance a = None \/
  (A <> B /\ Account.balance b = None /\
   exists bA, Account.balance a = Some bA /\ (bA <? amount)%float = false) ->
  Mutation.transfer_funds A B amount db = (Raise TypeError, db).
Proof.
  intros Ha Hb H. rewrite transfer_funds_spec, Ha, Hb.
  destruct H as [->|(Hne & HbN & bA & -> & ->)]; [done|].
  destruct (Z.eqb_spec A B); [done|]. by rewrite HbN.
Qed.

Lemma transfer_funds_null_balance_witness :
  reachable alice_null /\
  alice_null =
  MkDatabase [Customer.Build 1 "Alice"; Customer.Build 2 "Bob"]
             [Account.Build 1 1 None; Account.Build 2 2 (Some infinity)]
             [Transaction.Build 1 1 2 (Some infinity)] /\
  Mutation.transfer_funds 2 1 5 alice_null = (Raise TypeError, alice_null).
Proof.
  split; [|split; [vm_compute; reflexivity|]].
  - apply (reachable_perform_all
             [CreateCustomer "Alice"; CreateAccount 1 infinity;
              CreateCustomer "Bob"; CreateAccount 2 0;
              TransferFunds 1 2 infinity]
             empty_db); [apply reachable_empty|vm_compute; reflexivity].
  - apply (transfer_funds_null_balance alice_null 2 1 5
             (Account.Build 2 2 (Some infinity)) (Account.Build 1 1 None));
      [vm_compute; reflexivity | vm_compute; reflexivity |].
    right. split; [lia|]. split; [reflexivity|].
    exists infinity. split; [reflexivity|vm_compute; reflexivity].
Defined.

(** ** What a mutation never does *)

Lemma account_key_transfer_rows f t bf bt amount rows :
  map account_key (transfer_rows f t bf bt amount rows) = map account_key rows.
Proof. unfold transfer_rows. rewrite map_map. by apply map_ext. Qed.

(** A successful mutation adds exactly one row to the store and deletes or
    replaces none: the customers and the transactions it finds are still
    there, in place and unchanged; the accounts are too, except that
    [transfer_funds] rewrites balances, keeping every account's id and
    owner. *)
Theorem mutations_append_only op db db' :
  perform op db = Some db' ->
  row_count db' = S (row_count db) /\
  tbl_customers db `prefix_of` tbl_customers db' /\
  tbl_transactions db `prefix_of` tbl_transactions db' /\
  map account_key (tbl_accounts db) `prefix_of`
    map account_key (tbl_accounts db') /\
  match op with
  | TransferFunds _ _ _ =>
      length (tbl_accounts db') = length (tbl_accounts db)
  | _ => tbl_accounts db `prefix_of` tbl_accounts db'
  end.
Proof.
  unfold row_count. destruct op as [name|c b|f t amount]; cbn [perform].
  - rewrite create_customer_spec. intros [= <-]. cbn.
    rewrite length_app. cbn. repeat split; try done; try lia.
    by apply prefix_app_r.
  - rewrite create_account_spec. destruct (select_customer db c); [|done].
    intros [= <-]. cbn. rewrite length_app, map_app. cbn.
    repeat split; try done; try lia; by apply prefix_app_r.
  - destruct (transfer_funds_cases f t amount db)
      as [[e ->]|(a & b & bf & bt & _ & _ & _ & _ & _ & ->)]; [done|].
    intros [= <-]. cbn [tbl_customers tbl_accounts tbl_transactions].
    rewrite account_key_transfer_rows, length_app. unfold transfer_rows.
    rewrite length_map. cbn. repeat split; try done; try lia.
    by apply prefix_app_r.
Qed.

Lemma mutations_append_only_witness :
  let db' := MkDatabase [Customer.Build 1 "Alice"; Customer.Build 2 "Bob"]
                        [Account.Build 1 1 (Some 60%float);
                         Account.Build 2 2 (Some 40%float)]
                        [Transaction.Build 1 1 2 (Some 40%float)] in
  row_count db' = S (row_count alice_bob) /\
  tbl_customers alice_bob `prefix_of` tbl_customers db' /\
  tbl_transactions alice_bob `prefix_of` tbl_transactions db' /\
  map account_key (tbl_accounts alice_bob) `prefix_of`
    map account_key (tbl_accounts db') /\
  length (tbl_accounts db') = length (tbl_accounts alice_bob).
Proof.
  apply (mutations_append_only (TransferFunds 1 2 40) alice_bob).
  vm_compute. reflexivity.
Defined.

(** ** Primary keys *)

Lemma foldr_max_le k0 ks n :
  k0 <= n -> Forall (fun k => k <= n) ks -> foldr Z.max k0 ks <= n.
Proof. intros H0 H. induction H; cbn [foldr]; lia. Qed.

Lemma seq_keys_le n :
  Forall (fun k => k <= Z.of_nat n) (map Z.of_nat (seq 1 n)).
Proof.
  apply Forall_forall. intros k (i & -> & Hi)%list_elem_of_fmap.
  apply elem_of_seq in Hi. lia.
Qed.

Lemma fresh_id_sequential ks :
  sequential ks -> fresh_id ks = Z.of_nat (length ks) + 1.
Proof.
  unfold sequential. intros Hks. destruct ks as [|k0 ks]; [done|].
  cbn [fresh_id]. set (n := length (k0 :: ks)) in *.
  assert (Z.of_nat n ∈ k0 :: ks) as Hin.
  { rewrite Hks. apply list_elem_of_fmap. exists n. split; [done|].
    apply elem_of_seq. subst n. cbn. lia. }
  pose proof (fresh_id_lt _ _ Hin) as Hlt. cbn [fresh_id] in Hlt.
  pose proof (seq_keys_le n) as Hle. rewrite <- Hks in Hle.
  apply Forall_cons in Hle as [Hle0 Hle].
  pose proof (foldr_max_le k0 ks _ Hle0 Hle). lia.
Qed.

Lemma sequential_snoc ks :
  sequential ks -> sequential (ks ++ [fresh_id ks]).
Proof.
  intros Hks. rewrite (fresh_id_sequential ks Hks). unfold sequential in *.
  rewrite length_app, Nat.add_1_r, seq_S, map_app, <- Hks. cbn.
  do 2 f_equal. lia.
Qed.

Lemma sequential_ids_perform op db db' :
  sequential_ids db -> perform op db = Some db' -> sequential_ids db'.
Proof.
  intros (Hc & Ha & Hx). unfold sequential_ids.
  destruct op as [name|c b|f t amount]; cbn [perform].
  - rewrite create_customer_spec. intros [= <-]. cbn. rewrite map_app. cbn.
    split; [|done]. by apply sequential_snoc.
  - rewrite create_account_spec. destruct (select_customer db c); [|done].
    intros [= <-]. cbn. rewrite map_app. cbn.
    split; [done|]. split; [|done]. by apply sequential_snoc.
  - destruct (transfer_funds_cases f t amount db)
      as [[e ->]|(a & b & bf & bt & _ & _ & _ & _ & _ & ->)]; [done|].
    intros [= <-]. cbn [tbl_customers tbl_accounts tbl_transactions].
    rewrite transfer_rows_id, map_app. cbn.
    split; [done|]. split; [done|]. by apply sequential_snoc.
Qed.

Lemma reachable_sequential db : reachable db -> sequential_ids db.
Proof.
  induction 1 as [|db op db' _ IH Hop]; [done|].
  by apply (sequential_ids_perform op db).
Qed.

(** In every store the service can reach, the primary keys of each table are
    1, 2, ..., n in row order: no key is skipped or reused.  So the next
    customer gets the number of customers plus one as its id, and the
    account a successful [create_account] returns has the number of accounts
    plus one as its id. *)
Theorem reachable_sequential_ids db :
  reachable db ->
  sequential_ids db /\
  (forall name,
     fst (Mutation.create_customer name db) =
     Ok (CustomerType.Build (Z.of_nat (length (tbl_customers db)) + 1) name)) /\
  (forall customer_id initial_balance,
     match fst (Mutation.create_account customer_id initial_balance db) with
     | Ok account =>
         AccountType.id account = Z.of_nat (length (tbl_accounts db)) + 1
     | Raise _ => True
     end).
Proof.
  intros (Hc & Ha & Hx)%reachable_sequential. split; [done|]. split.
  - intros name. rewrite create_customer_spec. cbn.
    by rewrite (fresh_id_sequential _ Hc), length_map.
  - intros c b. rewrite create_account_spec.
    destruct (select_customer db c); [|done]. cbn.
    by rewrite (fresh_id_sequential _ Ha), length_map.
Qed.

Lemma reachable_sequential_ids_witness :
  sequential_ids alice_large /\
  (forall name,
     fst (Mutation.create_customer name alice_large) =
     Ok (CustomerType.Build (Z.of_nat (length (tbl_customers alice_large)) + 1)
           name)) /\
  (forall customer_id initial_balance,
     match fst (Mutation.create_account customer_id initial_balance alice_large) with
     | Ok account =>
         AccountType.id account =
         Z.of_nat (length (tbl_accounts alice_large)) + 1
     | Raise _ => True
     end).
Proof.
  apply (reachable_sequential_ids alice_large).
  apply (reachable_perform_all
           [CreateCustomer "Alice"; CreateAccount 1 9007199254740994]
           empty_db); [apply reachable_empty|vm_compute; reflexivity].
Defined.

(** ** The balance check at its boundary *)

Lemma SFcompare_refl x : SFcompare x x <> Some Lt.
Proof.
  destruct x as [ [] | [] | | [] m e]; cbn; try done;
    rewrite Z.compare_refl, Pos.compare_cont_refl; done.
Qed.

Lemma float_ltb_irrefl (x : float) : (x <? x)%float = false.
Proof.
  rewrite ltb_spec. unfold SFltb.
  pose proof (SFcompare_refl (Prim2SF x)).
  by destruct (SFcompare _ _) as [[]|].
Qed.

Lemma SFsub_diag x :
  SFltb (S754_infinity true) x = true -> SFltb x (S754_infinity false) = true ->
  SFsub prec emax x x = S754_zero false.
Proof.
  destruct x as [ [] | [] | | s m e]; try done. intros _ _.
  cbn [SFsub]. by rewrite Z.sub_diag.
Qed.

Lemma float_sub_diag (x : float) : finite x -> (x - x)%float = 0%float.
Proof.
  intros [Hlo Hhi]. rewrite ltb_spec in Hlo, Hhi.
  apply Prim2SF_inj. rewrite sub_spec. by apply SFsub_diag.
Qed.

(** The check is the strict [balance < amount], so an account can be
    emptied: for distinct existing accounts A and B whose balances are floats
    (not NULL), A's a finite one, [transfer_funds(A, B, A.balance)] succeeds
    and leaves A at exactly 0.0; B's balance becomes the binary64 sum
    [B.balance + A.balance] as the column stores it. *)
Theorem transfer_entire_balance db A B bA bB :
  A <> B ->
  balance_of db A = Some bA -> balance_of db B = Some bB -> finite bA ->
  exists db',
    Mutation.transfer_funds A B bA db = (Ok true, db') /\
    balance_of db' A = Some 0%float /\
    balance_of db' B = store_float (bB + bA)%float.
Proof.
  intros Hne HA HB Hfin.
  destruct (transfer_funds_success db A B bA bA bB HA HB (float_ltb_irrefl bA))
    as (db' & Hrun & _ & Hbal & _).
  pose proof HA as (a & Ha & _)%balance_of_Some.
  pose proof HB as (b & Hb & _)%balance_of_Some.
  exists db'. split; [done|]. split.
  - rewrite Hbal, Ha. cbn. by rewrite transferred_source, float_sub_diag.
  - rewrite Hbal, Hb. cbn. by rewrite transferred_destination.
Qed.

Lemma transfer_entire_balance_witness :
  exists db',
    Mutation.transfer_funds 1 2 100 alice_bob = (Ok true, db') /\
    balance_of db' 1 = Some 0%float /\
    balance_of db' 2 = store_float (0 + 100)%float.
Proof.
  apply (transfer_entire_balance alice_bob 1 2 100 0);
    [lia | vm_compute; reflexivity | vm_compute; reflexivity
     | split; vm_compute; reflexivity].
Defined.

(** ** Mutations followed by other resolvers *)

(** A customer that [create_customer] has just returned can always be given
    an account: [create_account] with the returned id succeeds on the store
    [create_customer] left, and the account it returns embeds that same
    customer and carries the requested balance as the column stores it
    ([store_float]), which is also the balance the new row holds. *)
Theorem create_account_for_new_customer db name initial_balance :
  exists customer db1 account db2,
    Mutation.create_customer name db = (Ok customer, db1) /\
    CustomerType.name customer = name /\
    Mutation.create_account (CustomerType.id customer) initial_balance db1 =
    (Ok account, db2) /\
    AccountType.customer account = customer /\
    AccountType.balance account = store_float initial_balance /\
    balance_of db2 (AccountType.id account) = store_float initial_balance.
Proof.
  rewrite create_customer_spec. cbn zeta. eexists _, _, _, _.
  split; [done|]. split; [done|]. rewrite create_account_spec.
  unfold select_customer. cbn [tbl_customers CustomerType.id].
  rewrite (find_key_fresh Customer.id) by done.
  cbn [tbl_customers tbl_accounts tbl_transactions].
  split; [done|]. split; [done|]. split; [done|].
  unfold balance_of, select_account. cbn [tbl_accounts AccountType.id].
  by rewrite (find_key_fresh Account.id).
Qed.

Lemma Forall2_Some_unique {A B} (f : A -> option B) l vs1 vs2 :
  Forall2 (fun r v => f r = Some v) l vs1 ->
  Forall2 (fun r v => f r = Some v) l vs2 -> vs1 = vs2.
Proof.
  intros H1. revert vs2. induction H1 as [|r v l vs1 Hv _ IH]; intros vs2 H2.
  - by apply Forall2_nil_inv_l in H2.
  - apply Forall2_cons_inv_l in H2 as (v' & vs2' & Hv' & H2 & ->).
    f_equal; [congruence|by apply IH].
Qed.

(** What the create mutations return is what the list resolvers then show:
    [customers()] after [create_customer] is the previous listing followed by
    the returned customer, and, on a store that satisfies the data-model
    invariants, [accounts()] after a successful [create_account] is the
    previous listing followed by the returned account. *)
Theorem listing_after_create db :
  integrity db ->
  (forall name,
     let '(r, db') := Mutation.create_customer name db in
     exists old v,
       r = Ok v /\ fst (Query.customers db) = Ok old /\
       fst (Query.customers db') = Ok (old ++ [v])) /\
  (forall customer_id initial_balance,
     match Mutation.create_account customer_id initial_balance db with
     | (Ok v, db') =>
         exists old,
           fst (Query.accounts db) = Ok old /\
           fst (Query.accounts db') = Ok (old ++ [v])
     | (Raise _, _) => True
     end).
Proof.
  intros Hi. split.
  - intros name. rewrite create_customer_spec. cbn zeta. eexists _, _.
    split; [done|]. rewrite !customers_spec. cbn [fst tbl_customers].
    split; [done|]. by rewrite map_app.
  - intros c b.
    pose proof (integrity_create_account c b db Hi) as Hi'.
    rewrite create_account_spec in Hi' |- *.
    destruct (select_customer db c) as [customer|] eqn:Hsel; [|done].
    cbn zeta in Hi' |- *. cbn [snd] in Hi'.
    destruct (accounts_spec db Hi) as (old & Hold & Hvold).
    destruct (accounts_spec _ Hi') as (views & Hrun & Hviews).
    exists old. rewrite Hold, Hrun. cbn [fst]. split; [done|]. f_equal.
    cbn [tbl_accounts] in Hviews.
    apply Forall2_app_inv_l in Hviews as (v1 & v2 & H1 & H2 & ->).
    rewrite (Forall2_Some_unique _ _ _ _ H1 Hvold). f_equal.
    apply Forall2_cons_inv_l in H2 as (v & vs & Hv & ->%Forall2_nil_inv_l & ->).
    unfold account_view, select_customer in Hv. cbn in Hv.
    unfold select_customer in Hsel. rewrite Hsel in Hv. cbn in Hv. congruence.
Qed.

Lemma listing_after_create_witness :
  (forall name,
     let '(r, db') := Mutation.create_customer name alice_bob in
     exists old v,
       r = Ok v /\ fst (Query.customers alice_bob) = Ok old /\
       fst (Query.customers db') = Ok (old ++ [v])) /\
  (forall customer_id initial_balance,
     match Mutation.create_account customer_id initial_balance alice_bob with
     | (Ok v, db') =>
         exists old,
           fst (Query.accounts alice_bob) = Ok old /\
           fst (Query.accounts db') = Ok (old ++ [v])
     | (Raise _, _) => True
     end).
Proof.
  apply (listing_after_create alice_bob).
  apply (bool_decide_unpack _). vm_compute. reflexivity.
Defined.

(** ** What the list resolvers show *)

(** On a store that satisfies the data-model invariants, every entry of
    [transactions()] carries its row's id and amount, and its two expanded
    accounts are the accounts the row names, shown with the balance they
    have now, in the store the query runs on, not the balance they had when
    the transfer was made. *)
Theorem transactions_show_current_balances db :
  integrity db ->
  exists views,
    fst (Query.transactions db) = Ok views /\
    Forall2
      (fun x v =>
         TransactionType.id v = Transaction.id x /\
         TransactionType.amount v = Transaction.amount x /\
         AccountType.id (TransactionType.from_account v) =
           Transaction.from_account_id x /\
         AccountType.id (TransactionType.to_account v) =
           Transaction.to_account_id x /\
         balance_of db (Transaction.from_account_id x) =
           AccountType.balance (TransactionType.from_account v) /\
         balance_of db (Transaction.to_account_id x) =
           AccountType.balance (TransactionType.to_account v))
      (tbl_transactions db) views.
Proof.
  intros Hi. destruct (transactions_spec db Hi) as (views & Hrun & Hviews).
  exists views. rewrite Hrun. split; [done|].
  eapply Forall2_impl; [exact Hviews|]. intros x v Hv. cbn beta in Hv.
  unfold transaction_view, balance_of in *.
  destruct (select_account db (Transaction.from_account_id x)) as [f|] eqn:Hf;
    [|done].
  destruct (select_account db (Transaction.to_account_id x)) as [t|] eqn:Ht;
    [|cbn in Hv; by destruct (account_view db f)].
  cbn in Hv. unfold account_view in Hv.
  destruct (select_customer db (Account.customer_id f)); [|done].
  destruct (select_customer db (Account.customer_id t)); [|done].
  cbn in Hv. injection Hv as <-. cbn.
  by rewrite (find_key_eq _ _ _ _ Hf), (find_key_eq _ _ _ _ Ht).
Qed.

Lemma transactions_show_current_balances_witness :
  exists views,
    fst (Query.transactions alice_paid_bob) = Ok views /\
    Forall2
      (fun x v =>
         TransactionType.id v = Transaction.id x /\
         TransactionType.amount v = Transaction.amount x /\
         AccountType.id (TransactionType.from_account v) =
           Transaction.from_account_id x /\
         AccountType.id (TransactionType.to_account v) =
           Transaction.to_account_id x /\
         balance_of alice_paid_bob (Transaction.from_account_id x) =
           AccountType.balance (TransactionType.from_account v) /\
         balance_of alice_paid_bob (Transaction.to_account_id x) =
           AccountType.balance (TransactionType.to_account v))
      (tbl_transactions alice_paid_bob) views.
Proof.
  apply (transactions_show_current_balances alice_paid_bob).
  apply (bool_decide_unpack _). vm_compute. reflexivity.
Defined.

(** ** A missing owner *)

Lemma account_type_missing_owner db s ref a :
  clean db s -> identity_map s !! ref = Some a ->
  select_customer db (Account.customer_id a) = None ->
  Query.account_type ref s = (Raise AttributeError, s).
Proof.
  intros [Hb _] Hget Hsel.
  unfold Query.account_type, mbind, Account_get, Account_customer,
    query_Customer_first.
  by rewrite Hget, Hb, Hsel.
Qed.

Lemma mapM_account_type_missing_owner db s rows :
  clean db s ->
  Forall (fun row => identity_map s !! Account.id row = Some row) rows ->
  Exists (fun a => select_customer db (Account.customer_id a) = None) rows ->
  mapM Query.account_type (map Account.id rows) s = (Raise AttributeError, s).
Proof.
  intros Hs Hl Hex. induction rows as [|row rows IH]; [by inversion Hex|].
  apply Forall_cons in Hl as [Hl1 Hl]. cbn [map mapM]. unfold mbind.
  destruct (select_customer db (Account.customer_id row)) as [c|] eqn:Hc.
  - rewrite (account_type_run db s _ row
               (AccountType.Build (Account.id row) (Account.balance row)
                  (customer_type c))) by (try done; unfold account_view; by rewrite Hc).
    apply Exists_cons in Hex as [Hex|Hex]; [congruence|].
    by rewrite (IH Hl Hex).
  - by rewrite (account_type_missing_owner db s _ row).
Qed.

(** [accounts()] reads [a.customer.id] without a check: on a store whose
    account ids are unique and where some account's [customer_id] names no
    customer, it raises [AttributeError] instead of returning a list, whatever
    the other rows are; the store is left as it was. *)
Theorem accounts_missing_owner db :
  NoDup (map Account.id (tbl_accounts db)) ->
  Exists (fun a => select_customer db (Account.customer_id a) = None)
         (tbl_accounts db) ->
  Query.accounts db = (Raise AttributeError, db).
Proof.
  intros Hnd Hex. unfold Query.accounts, with_session, mbind, query_Account_all.
  cbn [bind get_db].
  assert (Forall (fun row => select_account db (Account.id row) = Some row)
            (tbl_accounts db)) as Hrows.
  { apply Forall_forall. intros row. by apply (find_key_NoDup Account.id). }
  destruct (clean_foldl_load db _ _ (clean_get_db db) Hrows) as [Hc Hl].
  cbn zeta in Hc, Hl.
  rewrite (mapM_account_type_missing_owner db _ _ Hc Hl Hex).
  f_equal. apply Hc.
Qed.

Lemma accounts_missing_owner_witness :
  Query.accounts orphaned = (Raise AttributeError, orphaned).
Proof.
  apply (accounts_missing_owner orphaned).
  - apply (bool_decide_unpack _). vm_compute. reflexivity.
  - apply Exists_cons_tl, Exists_cons_hd. vm_compute. reflexivity.
Defined.

(** ** The account listing after a transfer *)

Lemma account_view_transferred db customers' rows' txs' f t bf bt amount row v :
  customers' = tbl_customers db ->
  account_view db row = Some v ->
  account_view (MkDatabase customers' rows' txs')
    (Account.with_balance row
       (transferred f t bf bt amount (Account.id row) (Account.balance row))) =
  Some (AccountType.Build (AccountType.id v)
          (transferred f t bf bt amount (AccountType.id v) (AccountType.balance v))
          (AccountType.customer v)).
Proof.
  intros -> Hv. unfold account_view, select_customer in *. cbn in *.
  destruct (find _ (tbl_customers db)) as [c|]; [|done].
  cbn in *. by injection Hv as <-.
Qed.

(** Read your writes: on a store that satisfies the data-model invariants,
    after a successful transfer between distinct accounts A and B whose
    balances are floats (not NULL), [accounts()] returns the listing it
    returned before with two balances replaced, A's by the binary64
    difference of its old balance and the amount and B's by the binary64 sum
    of its old balance and the amount, each as the column stores it
    ([store_float]); ids, owners, order and every other balance are the
    same. *)
Theorem accounts_after_transfer db A B amount bA bB :
  integrity db -> A <> B ->
  balance_of db A = Some bA -> balance_of db B = Some bB ->
  (bA <? amount)%float = false ->
  exists db' old,
    Mutation.transfer_funds A B amount db = (Ok true, db') /\
    fst (Query.accounts db) = Ok old /\
    fst (Query.accounts db') =
    Ok (map (fun v =>
               if AccountType.id v =? A then
                 AccountType.Build A (store_float (bA - amount)%float)
                   (AccountType.customer v)
               else if AccountType.id v =? B then
                 AccountType.Build B (store_float (bB + amount)%float)
                   (AccountType.customer v)
               else v)
            old).
Proof.
  intros Hi Hne HA HB Hlt.
  pose proof (integrity_transfer_funds A B amount db Hi) as Hi'.
  pose proof HA as (a & Ha & HbA)%balance_of_Some.
  pose proof HB as (b & Hb & HbB)%balance_of_Some.
  rewrite transfer_funds_spec, Ha, Hb, HbA, Hlt in Hi' |- *.
  destruct (Z.eqb_spec A B) as [|_]; [done|].
  rewrite HbB in Hi' |- *. cbn [snd] in Hi'.
  destruct (accounts_spec db Hi) as (old & Hold & Hvold).
  destruct (accounts_spec _ Hi') as (new & Hnew & Hvnew).
  eexists _, old. split; [done|]. split; [by rewrite Hold|].
  rewrite Hnew. cbn [fst]. f_equal.
  eapply Forall2_Some_unique; [exact Hvnew|].
  cbn [tbl_accounts]. unfold transfer_rows.
  apply Forall2_fmap. eapply Forall2_impl; [exact Hvold|].
  intros row v Hv. cbn beta.
  rewrite (account_view_transferred db _ _ _ A B _ _ amount row v eq_refl Hv).
  f_equal. unfold transferred.
  destruct (Z.eqb_spec A B) as [|_]; [done|].
  destruct (Z.eqb_spec (AccountType.id v) A) as [HvA|HvA].
  - rewrite HvA. by destruct (Z.eqb_spec A B).
  - destruct (Z.eqb_spec (AccountType.id v) B) as [->|HvB]; [done|].
    by destruct v.
Qed.

Lemma accounts_after_transfer_witness :
  exists db' old,
    Mutation.transfer_funds 1 2 40 alice_bob = (Ok true, db') /\
    fst (Query.accounts alice_bob) = Ok old /\
    fst (Query.accounts db') =
    Ok (map (fun v =>
               if AccountType.id v =? 1 then
                 AccountType.Build 1 (store_float (100 - 40)%float)
                   (AccountType.customer v)
               else if AccountType.id v =? 2 then
                 AccountType.Build 2 (store_float (0 + 40)%float)
                   (AccountType.customer v)
               else v)
            old).
Proof.
  apply (accounts_after_transfer alice_bob 1 2 40 100 0);
    [apply (bool_decide_unpack _); vm_compute; reflexivity
    | lia | vm_compute; reflexivity ..].
Defined.
